(** * Benchmark workflows and instrumentation bootstrap

    A shallow embedding of the benchmark workflow file (steps [doWork],
    [genBenchStream], [doubleNumbers], [stressTestStep] and the workflows
    built from them) and of [instrumentation.ts].

    Conventions of the embedding.
    - A JavaScript [number] is an IEEE 754 double.  Where any double may
      come in (the input of [noStepsWorkflow] and [oneStepWorkflow]) it is a
      primitive [float], with the kernel's binary64 [+] and [*].  The numbers
      [parseInt] makes, and their doubles, are integers, [NaN] or an
      infinity: they live in [Number], where [Int z] is the double whose value
      is the integer [z]; [roundToDouble] rounds to the nearest double, ties
      to even, and [Number_toString] prints as JavaScript does (shortest
      digits that read back, exponent form from 1e21).  Loop counters, step
      counts and the constant 42 are small integers and are plain [Z].
    - An [async] function is a computation in the monad [M]: it threads the
      runtime's [World] (promise identifiers, the history of step invocations
      and observed completions, and the oracle that decides which pending
      unit completes next) and yields [None] when it never settles.  The
      steps of this file always return, so a promise carries the value it
      settles with; in which order started units complete is up to whoever
      runs them, and every property below is proved for every oracle.  The
      oracle that always answers 0 is plain JavaScript, where the promises
      are resolved when they are made and the first one in iteration order
      wins a race.
    - Arrays are lists ([push] appends at the end); a JS [Map] is an
      association list in insertion order.
    - A stream is a state machine; the producer ([start] of the underlying
      source), the pipe and the reader of the output move one at a time, in
      any order a schedule names.
    - The bootstrap is the list of the boundary actions it performs, with the
      settlement of the promise chain it leaves behind. *)

From Stdlib Require Import PrimFloat.
From Stdlib Require FloatOps.
From Stdlib Require Import ZArith String Ascii Lia DecimalPos.
From stdpp Require Import base list.

Local Open Scope Z_scope.

(** ** The workflow runtime *)

Module Runtime.

Inductive StepName :=
| doWork_fn
| genBenchStream_fn
| doubleNumbers_fn
| stressTestStep_fn.

(** What the runtime records: a step function was invoked and its promise
    got identifier [id]; the workflow observed the completion of promise
    [id] (through [await], [Promise.all] or [Promise.race]). *)
Inductive Event :=
| Started (f : StepName) (id : nat)
| Observed (id : nat).

Record World := mkWorld {
  nextId : nat;
  oracle : list nat;
  history : list Event
}.

Record Promise (A : Type) := mkPromise { pid : nat; pval : A }.
Arguments mkPromise {A} _ _.
Arguments pid {A} _.
Arguments pval {A} _.

Definition M (A : Type) : Type := World -> option (A * World).

Definition ret {A} (a : A) : M A := fun w => Some (a, w).

Definition bind {A B} (m : M A) (k : A -> M B) : M B :=
  fun w => match m w with
           | Some (a, w') => k a w'
           | None => None
           end.

(** A computation that never settles. *)
Definition never {A} : M A := fun _ => None.

Definition record (e : Event) : M unit :=
  fun w => Some (tt, mkWorld (nextId w) (oracle w) (history w ++ [e])).

Definition freshId : M nat :=
  fun w => Some (nextId w, mkWorld (S (nextId w)) (oracle w) (history w)).

(** The oracle answers "which of the [n] pending units completes next". *)
Definition choose (n : nat) : M nat :=
  fun w => match n with
           | O => None
           | _ => Some ((hd O (oracle w) mod n)%nat,
                        mkWorld (nextId w) (tl (oracle w)) (history w))
           end.

Definition initial (o : list nat) : World := mkWorld O o [].

Definition run {A} (m : M A) (o : list nat) : option (A * World) :=
  m (initial o).

End Runtime.
Import Runtime.

Notation "x <- m ;; k" := (bind m (fun x => k))
  (at level 100, m at next level, right associativity).
Notation "m ;;; k" := (bind m (fun _ => k))
  (at level 100, right associativity).

(** Invoking a function marked ['use step']: the runtime starts the unit and
    hands back a promise for the value its body returns. *)
Definition callStep {A} (f : StepName) (body : A) : M (Promise A) :=
  id <- freshId ;;
  record (Started f id) ;;;
  ret (mkPromise id body).

Definition await {A} (p : Promise A) : M A :=
  record (Observed (pid p)) ;;;
  ret (pval p).

(** [for (let i = from; i < count; i++) body], the body updating the local
    state [St]; the loop runs [count - from] times when that is positive. *)
Fixpoint forRange {St} (n : nat) (i : Z) (body : Z -> St -> M St) (s : St) : M St :=
  match n with
  | O => ret s
  | S n' => s' <- body i s ;; forRange n' (i + 1) body s'
  end.

Definition forLt {St} (from count : Z) (body : Z -> St -> M St) (s : St) : M St :=
  forRange (Z.to_nat (count - from)) from body s.

(** The same loop with the guard evaluated at each turn, bounded by fuel. *)
Fixpoint forGuarded {St} (fuel : nat) (i count : Z) (body : Z -> St -> M St) (s : St)
  : M St :=
  match fuel with
  | O => never
  | S fuel' =>
      if i <? count
      then s' <- body i s ;; forGuarded fuel' (i + 1) count body s'
      else ret s
  end.

(** ** Doubles *)

Abbreviation double := PrimFloat.float.

(** The integer [q * 2^e] nearest to [a >= 0] among those with [q] of at
    most 53 bits, ties going to the even [q]. *)
Definition nearest53 (a : Z) : Z * Z :=
  if a <? 2 ^ 53 then (a, 0)
  else
    let e := Z.log2 a - 52 in
    let q := Z.shiftr a e in
    let r := a - Z.shiftl q e in
    let half := Z.shiftl 1 (e - 1) in
    if (half <? r) || ((r =? half) && Z.odd q) then (q + 1, e) else (q, e).

(** The double nearest to an integer, as a primitive float. *)
Definition Z_to_double (v : Z) : double :=
  let (q, e) := nearest53 (Z.abs v) in
  let f := FloatOps.Z.ldexp (PrimFloat.of_uint63 (Uint63Axioms.of_Z q)) e in
  if v <? 0 then PrimFloat.opp f else f.

(** ** Steps and the simple workflows *)

Definition doWork : M (Promise Z) := callStep doWork_fn 42.

Definition noStepsWorkflow (input : double) : M double :=
  ret (PrimFloat.mul input 2%float).

Definition oneStepWorkflow (input : double) : M double :=
  p <- doWork ;;
  result <- await p ;;
  ret (PrimFloat.add (Z_to_double result) input).

Definition tenSequentialStepsWorkflow : M Z :=
  result <- forLt 0 10 (fun _ _ => p <- doWork ;; await p) 0 ;;
  ret result.

(** Number of invocations of step [f] in a history. *)
Definition isStarted (f : StepName) (e : Event) : bool :=
  match e, f with
  | Started doWork_fn _, doWork_fn => true
  | Started genBenchStream_fn _, genBenchStream_fn => true
  | Started doubleNumbers_fn _, doubleNumbers_fn => true
  | Started stressTestStep_fn _, stressTestStep_fn => true
  | _, _ => false
  end.

Definition invocations (f : StepName) (w : World) : nat :=
  length (List.filter (isStarted f) (history w)).

Definition anyStarted (e : Event) : bool :=
  match e with Started _ _ => true | Observed _ => false end.

Definition stepsStarted (w : World) : nat :=
  length (List.filter anyStarted (history w)).

(** ** Combined waits *)

(** [Promise.all]: the pending units complete one at a time, in the order the
    oracle decides; each completion stores the unit's value at the unit's
    submission index, and the combined promise settles once nothing is
    pending. *)
Fixpoint settleAll {A} (n : nat) (pending : list (nat * Promise A))
    (values : list (option A)) : M (list (option A)) :=
  match n with
  | O => ret values
  | S n' =>
      j <- choose (length pending) ;;
      match pending !! j with
      | Some (idx, p) =>
          record (Observed (pid p)) ;;;
          settleAll n' (delete j pending) (<[idx := Some (pval p)]> values)
      | None => never
      end
  end.

Fixpoint allSome {A} (values : list (option A)) : option (list A) :=
  match values with
  | [] => Some []
  | Some v :: rest =>
      match allSome rest with Some vs => Some (v :: vs) | None => None end
  | None :: _ => None
  end.

Definition Promise_all {A} (promises : list (Promise A)) : M (list A) :=
  values <- settleAll (length promises) (imap pair promises)
                      (replicate (length promises) None) ;;
  match allSome values with
  | Some vs => ret vs
  | None => never
  end.

(** [Promise.race]: settles with the value of whichever unit the oracle lets
    complete first; over no units at all it never settles. *)
Definition Promise_race {A} (promises : list (Promise A)) : M A :=
  j <- choose (length promises) ;;
  match promises !! j with
  | Some p => record (Observed (pid p)) ;;; ret (pval p)
  | None => never
  end.

Definition tenParallelStepsWorkflow : M Z :=
  promises <- forLt 0 10 (fun _ promises => p <- doWork ;; ret (promises ++ [p])) [] ;;
  results <- Promise_all promises ;;
  ret (fold_left (fun sum val => sum + val) results 0).

(** ** Stress-test workflows *)

Definition stressTestStep (i : Z) : M (Promise Z) := callStep stressTestStep_fn i.

Definition promiseAllStressTest_promises (count : Z) : M (list (Promise Z)) :=
  forLt 0 count (fun i promises => p <- stressTestStep i ;; ret (promises ++ [p])) [].

Definition promiseAllStressTest_results (count : Z) : M (list Z) :=
  promises <- promiseAllStressTest_promises count ;;
  Promise_all promises.

Definition promiseAllStressTestWorkflow (count : Z) : M Z :=
  results <- promiseAllStressTest_results count ;;
  ret (Z.of_nat (length results)).

(** A JS [Map] with number keys, entries kept in insertion order. *)
Definition JSMap (V : Type) : Type := list (Z * V).

Fixpoint Map_set {V} (k : Z) (v : V) (m : JSMap V) : JSMap V :=
  match m with
  | [] => [(k, v)]
  | (k', v') :: m' =>
      if k' =? k then (k, v) :: m' else (k', v') :: Map_set k v m'
  end.

Fixpoint Map_delete {V} (k : Z) (m : JSMap V) : JSMap V :=
  match m with
  | [] => []
  | (k', v') :: m' =>
      if k' =? k then m' else (k', v') :: Map_delete k m'
  end.

Definition Map_has {V} (k : Z) (m : JSMap V) : bool :=
  existsb (fun e => fst e =? k) m.

Definition Map_size {V} (m : JSMap V) : Z := Z.of_nat (length m).

Definition Map_keys {V} (m : JSMap V) : list Z := map fst m.

Definition Map_values {V} (m : JSMap V) : list V := map snd m.

Section RaceDrain.

(** The unit of work that is started once per index. *)
Variable step : Z -> M (Promise Z).

Definition raceFill (count : Z) : M (JSMap (Promise Z)) :=
  forLt 0 count (fun i runningTasks =>
                   p <- step i ;; ret (Map_set i p runningTasks)) [].

(** One turn of the [while] body: race, push the result, delete it. *)
Definition raceTurn (runningTasks : JSMap (Promise Z)) (done : list Z)
  : M (JSMap (Promise Z) * list Z) :=
  result <- Promise_race (Map_values runningTasks) ;;
  ret (Map_delete result runningTasks, done ++ [result]).

Fixpoint raceDrain (fuel : nat) (runningTasks : JSMap (Promise Z)) (done : list Z)
  : M (JSMap (Promise Z) * list Z) :=
  match fuel with
  | O => never
  | S fuel' =>
      if Map_size runningTasks >? 0
      then st <- raceTurn runningTasks done ;;
           raceDrain fuel' (fst st) (snd st)
      else ret (runningTasks, done)
  end.

Definition raceWorkflow (fuel : nat) (count : Z) : M Z :=
  runningTasks <- raceFill count ;;
  st <- raceDrain fuel runningTasks [] ;;
  ret (Z.of_nat (length (snd st))).

End RaceDrain.

Definition promiseRaceStressTestLargeWorkflow (fuel : nat) (count : Z) : M Z :=
  raceWorkflow stressTestStep fuel count.

(** ** Text, bytes and numbers

    A byte is a [Z] in [0, 255] and a chunk ([Uint8Array]) a list of bytes.
    Text is the list of its code points: [split], [trim] and [parseInt] only
    look at newlines, white space, signs and digits, none of which is coded
    with surrogates, so code points and UTF-16 code units agree for them. *)

Definition chunk : Type := list Z.
Definition text : Type := list Z.

Definition LF : Z := 10.
Definition REPLACEMENT : Z := 0xFFFD.
Definition BOM : Z := 0xFEFF.

Definition between (lo hi x : Z) : bool := (lo <=? x) && (x <=? hi).

(** [TextEncoder.encode]: UTF-8; a lone surrogate is coded as U+FFFD. *)
Definition encodeCodePoint (c : Z) : list Z :=
  if c <? 0x80 then [c]
  else if c <? 0x800 then
    [Z.lor 0xC0 (Z.shiftr c 6); Z.lor 0x80 (Z.land c 0x3F)]
  else if c <? 0x10000 then
    if between 0xD800 0xDFFF c then [0xEF; 0xBF; 0xBD]
    else [Z.lor 0xE0 (Z.shiftr c 12);
          Z.lor 0x80 (Z.land (Z.shiftr c 6) 0x3F);
          Z.lor 0x80 (Z.land c 0x3F)]
  else [Z.lor 0xF0 (Z.shiftr c 18);
        Z.lor 0x80 (Z.land (Z.shiftr c 12) 0x3F);
        Z.lor 0x80 (Z.land (Z.shiftr c 6) 0x3F);
        Z.lor 0x80 (Z.land c 0x3F)].

Definition TextEncoder_encode (s : text) : chunk :=
  flat_map encodeCodePoint s.

(** [TextDecoder] for UTF-8 with replacement of malformed input.  The state
    is kept between calls, which is what [{ stream: true }] asks for: bytes of
    an unfinished sequence wait for the next chunk. *)
Record TextDecoder := mkDecoder {
  codePoint : Z;
  bytesSeen : Z;
  bytesNeeded : Z;
  lowerBoundary : Z;
  upperBoundary : Z;
  bomSeen : bool
}.

Definition new_TextDecoder : TextDecoder := mkDecoder 0 0 0 0x80 0xBF false.

Definition resetSequence (d : TextDecoder) : TextDecoder :=
  mkDecoder 0 0 0 0x80 0xBF (bomSeen d).

(** A byte met when no sequence is open. *)
Definition leadByte (d : TextDecoder) (b : Z) : list Z * TextDecoder :=
  if between 0x00 0x7F b then ([b], d)
  else if between 0xC2 0xDF b then
    ([], mkDecoder (Z.land b 0x1F) 0 1 0x80 0xBF (bomSeen d))
  else if between 0xE0 0xEF b then
    ([], mkDecoder (Z.land b 0xF) 0 2
                   (if b =? 0xE0 then 0xA0 else 0x80)
                   (if b =? 0xED then 0x9F else 0xBF) (bomSeen d))
  else if between 0xF0 0xF4 b then
    ([], mkDecoder (Z.land b 0x7) 0 3
                   (if b =? 0xF0 then 0x90 else 0x80)
                   (if b =? 0xF4 then 0x8F else 0xBF) (bomSeen d))
  else ([REPLACEMENT], d).

Definition decodeByte (d : TextDecoder) (b : Z) : list Z * TextDecoder :=
  if bytesNeeded d =? 0 then leadByte d b
  else if between (lowerBoundary d) (upperBoundary d) b then
    let c := Z.lor (Z.shiftl (codePoint d) 6) (Z.land b 0x3F) in
    if bytesSeen d + 1 =? bytesNeeded d
    then ([c], resetSequence d)
    else ([], mkDecoder c (bytesSeen d + 1) (bytesNeeded d) 0x80 0xBF (bomSeen d))
  else
    (* malformed: emit U+FFFD and look at the byte again with no sequence open *)
    let (out, d') := leadByte (resetSequence d) b in
    (REPLACEMENT :: out, d').

Fixpoint decodeBytes (d : TextDecoder) (bytes : chunk) : list Z * TextDecoder :=
  match bytes with
  | [] => ([], d)
  | b :: rest =>
      let (out1, d1) := decodeByte d b in
      let (out2, d2) := decodeBytes d1 rest in
      (out1 ++ out2, d2)
  end.

(** The first code point the decoder ever outputs is dropped when it is the
    byte order mark. *)
Definition stripBOM (d : TextDecoder) (out : list Z) : text * TextDecoder :=
  if bomSeen d then (out, d)
  else match out with
       | [] => (out, d)
       | c :: rest =>
           let d' := mkDecoder (codePoint d) (bytesSeen d) (bytesNeeded d)
                               (lowerBoundary d) (upperBoundary d) true in
           if c =? BOM then (rest, d') else (out, d')
       end.

(** [decoder.decode(chunk, { stream: true })] *)
Definition TextDecoder_decode (d : TextDecoder) (bytes : chunk) : text * TextDecoder :=
  let (out, d') := decodeBytes d bytes in
  stripBOM d' out.

(** [text.split(sep)] for a one-character separator. *)
Fixpoint split (sep : Z) (s : text) : list text :=
  match s with
  | [] => [[]]
  | c :: rest =>
      if c =? sep then [] :: split sep rest
      else match split sep rest with
           | line :: lines => (c :: line) :: lines
           | [] => [[c]]
           end
  end.

(** White space and line terminators of ECMAScript. *)
Definition isWhiteSpace (c : Z) : bool :=
  between 0x09 0x0D c || (c =? 0x20) || (c =? 0xA0) || (c =? 0x1680)
  || between 0x2000 0x200A c || (c =? 0x2028) || (c =? 0x2029)
  || (c =? 0x202F) || (c =? 0x205F) || (c =? 0x3000) || (c =? 0xFEFF).

Fixpoint trimStart (s : text) : text :=
  match s with
  | [] => []
  | c :: rest => if isWhiteSpace c then trimStart rest else s
  end.

Definition trim (s : text) : text := rev (trimStart (rev (trimStart s))).

(** Truthiness of a string: it is not empty. *)
Definition truthy (s : text) : bool :=
  match s with [] => false | _ => true end.

Inductive Number :=
| NaN
| Infinity (negative : bool)
| Int (z : Z).

(** The double nearest to an integer; past the largest double, an infinity. *)
Definition roundToDouble (v : Z) : Number :=
  let (q, e) := nearest53 (Z.abs v) in
  let m := Z.shiftl q e in
  if 2 ^ 1024 <=? m then Infinity (v <? 0) else Int (Z.sgn v * m).

Definition isDigit (c : Z) : bool := between 48 57 c.

Fixpoint leadingDigits (s : text) : list Z :=
  match s with
  | [] => []
  | c :: rest => if isDigit c then (c - 48) :: leadingDigits rest else []
  end.

(** [parseInt(s, 10)]: leading white space, an optional sign, then the longest
    run of decimal digits; [NaN] when that run is empty, otherwise the double
    nearest to the signed integer the digits write. *)
Definition parseInt10 (s : text) : Number :=
  let s1 := trimStart s in
  let signed :=
    match s1 with
    | c :: rest => if c =? 45 then (-1, rest)
                   else if c =? 43 then (1, rest) else (1, s1)
    | [] => (1, s1)
    end in
  match leadingDigits (snd signed) with
  | [] => NaN
  | ds => roundToDouble (fst signed * fold_left (fun acc d => acc * 10 + d) ds 0)
  end.

(** The product of two doubles that are integers, infinities or [NaN]. *)
Definition Number_mul (a b : Number) : Number :=
  match a, b with
  | NaN, _ => NaN
  | _, NaN => NaN
  | Infinity s, Infinity t => Infinity (xorb s t)
  | Infinity s, Int y => if y =? 0 then NaN else Infinity (xorb s (y <? 0))
  | Int x, Infinity t => if x =? 0 then NaN else Infinity (xorb (x <? 0) t)
  | Int x, Int y => roundToDouble (x * y)
  end.

Fixpoint digitsOf (u : Decimal.uint) : text :=
  match u with
  | Decimal.Nil => []
  | Decimal.D0 u' => 48 :: digitsOf u'
  | Decimal.D1 u' => 49 :: digitsOf u'
  | Decimal.D2 u' => 50 :: digitsOf u'
  | Decimal.D3 u' => 51 :: digitsOf u'
  | Decimal.D4 u' => 52 :: digitsOf u'
  | Decimal.D5 u' => 53 :: digitsOf u'
  | Decimal.D6 u' => 54 :: digitsOf u'
  | Decimal.D7 u' => 55 :: digitsOf u'
  | Decimal.D8 u' => 56 :: digitsOf u'
  | Decimal.D9 u' => 57 :: digitsOf u'
  end.

(** The decimal numeral of an integer, every digit of it. *)
Definition decimal (z : Z) : text :=
  match Z.to_int z with
  | Decimal.Pos u => digitsOf u
  | Decimal.Neg u => 45 :: digitsOf u
  end.

(** A string literal of ASCII characters as text. *)
Fixpoint lit (s : string) : text :=
  match s with
  | EmptyString => []
  | String a rest => Z.of_N (N_of_ascii a) :: lit rest
  end.

Definition roundsTo (c a : Z) : bool :=
  match roundToDouble c with
  | Int m => m =? a
  | _ => false
  end.

(** The integer with the fewest significant digits that reads back as the
    double [a]: multiples of ever smaller powers of ten next to [a] are tried,
    [10 ^ j] first; of two that do at the same power the nearer one is taken,
    the even one when they are as near. *)
Fixpoint shortestFrom (j : nat) (a : Z) : Z :=
  match j with
  | O => a
  | S j' =>
      let p := 10 ^ Z.of_nat j in
      let lo := a / p * p in
      let hi := lo + p in
      if roundsTo lo a && roundsTo hi a then
        if a - lo <? hi - a then lo
        else if hi - a <? a - lo then hi
        else if Z.even (lo / p) then lo else hi
      else if roundsTo lo a then lo
      else if roundsTo hi a then hi
      else shortestFrom j' a
  end.

Fixpoint dropZeros (s : text) : text :=
  match s with
  | [] => []
  | c :: rest => if c =? 48 then dropZeros rest else s
  end.

(** How a double that is a positive integer is printed.  Below 2^53 every
    integer is a double, so its own digits are the shortest that read back;
    from there on the shortest digits are searched for, zeros fill up to
    21 digits, and longer numbers take the exponent form. *)
Definition positiveToString (a : Z) : text :=
  if a <? 2 ^ 53 then decimal a
  else
    let ds := decimal (shortestFrom (length (decimal a)) a) in
    let n := Z.of_nat (length ds) in
    if n <=? 21 then ds
    else match rev (dropZeros (rev ds)) with
         | [] => ds
         | [d] => d :: lit "e+" ++ decimal (n - 1)
         | d :: more => d :: 46 :: more ++ lit "e+" ++ decimal (n - 1)
         end.

(** What a template literal makes of a number. *)
Definition Number_toString (n : Number) : text :=
  match n with
  | NaN => lit "NaN"
  | Infinity false => lit "Infinity"
  | Infinity true => lit "-Infinity"
  | Int z => if z <? 0 then 45 :: positiveToString (- z) else positiveToString z
  end.

(** ** Streams *)

(** What the [start(controller)] callback of an underlying source does, in
    program order.  [Sleep] is the awaited timer between two chunks. *)
Inductive SourceAction :=
| Enqueue (c : chunk)
| Sleep (ms : Z)
| Close.

Fixpoint startFor (n : nat) (i : Z) (body : Z -> list SourceAction) : list SourceAction :=
  match n with
  | O => []
  | S n' => body i ++ startFor n' (i + 1) body
  end.

(** The body of [start] in [genBenchStream]. *)
Definition genBenchStream_start : list SourceAction :=
  startFor (Z.to_nat (10 - 0)) 0
    (fun i => [Enqueue (TextEncoder_encode (Number_toString (Int i) ++ [LF]));
               Sleep 10])
  ++ [Close].

(** A readable stream backed by an underlying source: what is left of
    [start], the chunks queued and not yet read, whether [close()] has been
    called, and whether the stream is errored. *)
Record ReadableStream := mkReadable {
  pendingStart : list SourceAction;
  queue : list chunk;
  closeRequested : bool;
  errored : bool
}.

Definition new_ReadableStream (start : list SourceAction) : ReadableStream :=
  mkReadable start [] false false.

(** [enqueue] or [close] after [close] throws inside [start]; the rejection
    errors the stream unless it is closed already (close requested and queue
    drained), and nothing more of [start] runs. *)
Definition startThrows (s : ReadableStream) : ReadableStream :=
  match queue s with
  | [] => mkReadable [] [] true (errored s)
  | _ :: _ => mkReadable [] [] true true
  end.

(** One action of the producer. *)
Definition sourceStep (s : ReadableStream) : ReadableStream :=
  match pendingStart s with
  | [] => s
  | Enqueue c :: rest =>
      if closeRequested s then startThrows s
      else mkReadable rest (queue s ++ [c]) false (errored s)
  | Sleep _ :: rest => mkReadable rest (queue s) (closeRequested s) (errored s)
  | Close :: rest =>
      if closeRequested s then startThrows s
      else mkReadable rest (queue s) true (errored s)
  end.

(** A transform stream with state [T]: [transform] gets a chunk, the state and
    the queue of the controller it may enqueue to. *)
Record TransformStream (T : Type) := mkTransform {
  tstate : T;
  transform : chunk -> T * list chunk -> T * list chunk
}.
Arguments mkTransform {T} _ _.
Arguments tstate {T} _.
Arguments transform {T} _ _ _.

(** What the transformer has been given by the pipe. *)
Inductive PipeEvent :=
| Handed (c : chunk)
| SawClose.

(** [source.pipeThrough(ts)] together with a reader that collects the
    output until it reads [done]. *)
Record Pipeline (T : Type) := mkPipeline {
  source : ReadableStream;
  through : TransformStream T;
  handed : list PipeEvent;
  outQueue : list chunk;
  outClosed : bool;
  received : list chunk;
  readerDone : bool
}.
Arguments mkPipeline {T} _ _ _ _ _ _ _.
Arguments source {T} _.
Arguments through {T} _.
Arguments handed {T} _.
Arguments outQueue {T} _.
Arguments outClosed {T} _.
Arguments received {T} _.
Arguments readerDone {T} _.

Definition pipeThrough {T} (stream : ReadableStream) (ts : TransformStream T) : Pipeline T :=
  mkPipeline stream ts [] [] false [] false.

Inductive Party := Producer | Pipe | Reader.

Definition isNil {A} (l : list A) : bool :=
  match l with [] => true | _ => false end.

Definition enabled {T} (p : Party) (st : Pipeline T) : bool :=
  match p with
  | Producer => negb (isNil (pendingStart (source st)))
  | Pipe => negb (isNil (queue (source st)))
            || (closeRequested (source st) && negb (outClosed st))
  | Reader => negb (isNil (outQueue st))
              || (outClosed st && negb (readerDone st))
  end.

(** The pipe reads the next chunk of the source and hands it to [transform];
    once the source is closed and drained it closes the output side. *)
Definition pipeStep {T} (st : Pipeline T) : Pipeline T :=
  let s := source st in
  match queue s with
  | c :: rest =>
      let (t', out') := transform (through st) c (tstate (through st), outQueue st) in
      mkPipeline (mkReadable (pendingStart s) rest (closeRequested s) (errored s))
                 (mkTransform t' (transform (through st)))
                 (handed st ++ [Handed c]) out' (outClosed st)
                 (received st) (readerDone st)
  | [] =>
      if closeRequested s && negb (outClosed st)
      then mkPipeline s (through st) (handed st ++ [SawClose]) (outQueue st) true
                      (received st) (readerDone st)
      else st
  end.

Definition readerStep {T} (st : Pipeline T) : Pipeline T :=
  match outQueue st with
  | c :: rest =>
      mkPipeline (source st) (through st) (handed st) rest (outClosed st)
                 (received st ++ [c]) (readerDone st)
  | [] =>
      if outClosed st
      then mkPipeline (source st) (through st) (handed st) [] true (received st) true
      else st
  end.

Definition stepParty {T} (p : Party) (st : Pipeline T) : Pipeline T :=
  match p with
  | Producer =>
      mkPipeline (sourceStep (source st)) (through st) (handed st) (outQueue st)
                 (outClosed st) (received st) (readerDone st)
  | Pipe => pipeStep st
  | Reader => readerStep st
  end.

Definition partyOf (n : nat) : Party :=
  match (n mod 3)%nat with
  | O => Producer
  | S O => Pipe
  | _ => Reader
  end.

(** The party the schedule names moves if it can; otherwise the first party
    that can move does.  [None]: every party waits. *)
Definition pickParty {T} (n : nat) (st : Pipeline T) : option Party :=
  if enabled (partyOf n) st then Some (partyOf n)
  else if enabled Producer st then Some Producer
  else if enabled Pipe st then Some Pipe
  else if enabled Reader st then Some Reader
  else None.

(** Run producer, pipe and reader under a schedule until the reader has read
    [done].  [None]: the stream errored, the parties wait for ever, or the
    fuel ran out. *)
Fixpoint runPipeline {T} (fuel : nat) (sched : list nat) (st : Pipeline T)
  : option (Pipeline T) :=
  if errored (source st) then None
  else if readerDone st then Some st
  else match fuel with
       | O => None
       | S fuel' =>
           match pickParty (hd O sched) st with
           | Some p => runPipeline fuel' (tl sched) (stepParty p st)
           | None => None
           end
       end.

(** The [transform] callback of [doubleNumbers]; the state is the decoder. *)
Definition doubleNumbers_transform (c : chunk) (st : TextDecoder * list chunk)
  : TextDecoder * list chunk :=
  let (decoder, controller) := st in
  let (txt, decoder') := TextDecoder_decode decoder c in
  let lines := split LF txt in
  (decoder',
   fold_left
     (fun controller line =>
        if truthy (trim line)
        then let num := parseInt10 line in
             controller ++ [TextEncoder_encode
                              (Number_toString (Number_mul num (Int 2)) ++ [LF])]
        else controller)
     lines controller).

Definition genBenchStream : M (Promise ReadableStream) :=
  callStep genBenchStream_fn (new_ReadableStream genBenchStream_start).

Definition doubleNumbers (stream : ReadableStream) : M (Promise (Pipeline TextDecoder)) :=
  let transformStream := mkTransform new_TextDecoder doubleNumbers_transform in
  callStep doubleNumbers_fn (pipeThrough stream transformStream).

Definition streamWorkflow : M (Pipeline TextDecoder) :=
  stream <- (p <- genBenchStream ;; await p) ;;
  doubled <- (p <- doubleNumbers stream ;; await p) ;;
  ret doubled.

(** The output [doubleNumbers] is described to give for one decoded chunk: one
    chunk per segment that is not blank, holding twice the segment's number
    and a newline. *)
Definition isBlank (segment : text) : bool :=
  forallb isWhiteSpace segment.

Definition doubledLine (segment : text) : chunk :=
  TextEncoder_encode (Number_toString (Number_mul (parseInt10 segment) (Int 2)) ++ [LF]).

Definition doubleNumbers_described (txt : text) : list chunk :=
  map doubledLine (List.filter (fun segment => negb (isBlank segment)) (split LF txt)).

(** ** The instrumentation bootstrap *)

Module Instrumentation.

Local Open Scope string_scope.

Inductive Action :=
| RegisterOTel (serviceName : string)
| ImportModule (specifier : string)
| GetWorld
| Start.

Definition Action_eq_dec (a b : Action) : {a = b} + {a <> b}.
Proof. decide equality; apply string_dec. Defined.

Inductive Settlement :=
| Fulfilled
| Rejected (reason : string).

(** The world object: [start] is optional; when present, calling it gives a
    promise that settles as recorded. *)
Record WorldObject := mkWorldObject { start : option Settlement }.

(** [process.env.NEXT_RUNTIME !== 'edge'] *)
Definition notEdge (NEXT_RUNTIME : option string) : bool :=
  match NEXT_RUNTIME with
  | Some v => negb (String.eqb v "edge")
  | None => true
  end.

(** The callback given to [then]: [await getWorld().start?.()]. *)
Definition kickstart (world : WorldObject) : list Action * Settlement :=
  match start world with
  | Some settles => ([GetWorld; Start], settles)
  | None => ([GetWorld], Fulfilled)
  end.

Record Bootstrap := mkBootstrap {
  actions : list Action;
  (** the promise [import(..).then(..)] leaves behind, if one was made *)
  pendingChain : option Settlement
}.

Definition instrumentation (NEXT_RUNTIME : option string) (world : WorldObject)
  : Bootstrap :=
  let registered := [RegisterOTel "example-nextjs-workflow"] in
  if notEdge NEXT_RUNTIME
  then let (acts, settles) := kickstart world in
       mkBootstrap (registered ++ ImportModule "workflow/api" :: acts) (Some settles)
  else mkBootstrap registered None.

End Instrumentation.

(** ** What a history says *)

Definition startedIds (w : World) : list nat :=
  omap (fun e => match e with Started _ id => Some id | Observed _ => None end)
       (history w).

Definition observedIds (w : World) : list nat :=
  omap (fun e => match e with Observed id => Some id | Started _ _ => None end)
       (history w).

(** The states the drain loop of [promiseRaceStressTestLargeWorkflow count]
    can be in at the head of the [while], under oracle [o]. *)
Inductive DrainReaches (count : Z) (o : list nat)
  : JSMap (Promise Z) -> list Z -> World -> Prop :=
| reaches_filled tasks w :
    raceFill stressTestStep count (initial o) = Some (tasks, w) ->
    DrainReaches count o tasks [] w
| reaches_turn tasks done w tasks' done' w' :
    DrainReaches count o tasks done w ->
    (Map_size tasks >? 0) = true ->
    raceTurn tasks done w = Some ((tasks', done'), w') ->
    DrainReaches count o tasks' done' w'.

(** The race workflow over a step that returns [g i] for index [i]. *)
Definition raceWorkflowReturning (g : Z -> Z) (fuel : nat) (count : Z) : M Z :=
  raceWorkflow (fun i => callStep stressTestStep_fn (g i)) fuel count.

(** The promises a fan-out loop has pushed after [n] turns from index [i],
    the first of them with identifier [id0]; the step returns [g i]. *)
Definition fanned {A} (g : Z -> A) (n : nat) (i : Z) (id0 : nat) : list (Promise A) :=
  map (fun k => mkPromise (id0 + k)%nat (g (i + Z.of_nat k))) (seq 0 n).

(** The map [raceFill] has built after [n] turns from index [i], the first
    promise with identifier [id0]; the step returns [g i]. *)
Definition filled (g : Z -> Z) (n : nat) (i : Z) (id0 : nat) : JSMap (Promise Z) :=
  map (fun k => (i + Z.of_nat k, mkPromise (id0 + k)%nat (g (i + Z.of_nat k)))) (seq 0 n).

(** Every entry is stored under the value its promise gives. *)
Definition selfKeyed (tasks : JSMap (Promise Z)) : Prop :=
  forall k p, (k, p) ∈ tasks -> pval p = k.

(** The chunks of the given ASCII lines, each ended by a newline. *)
Definition asLines (l : list string) : list chunk :=
  map (fun s => lit s ++ [LF]) l.

(** A chunk of ASCII bytes. *)
Definition isAscii (c : chunk) : bool := forallb (between 0x00 0x7F) c.

(** *** What a pipeline is going to do *)

(** The chunks a [start] body still has to enqueue. *)
Fixpoint chunksOf (acts : list SourceAction) : list chunk :=
  match acts with
  | [] => []
  | Enqueue c :: rest => c :: chunksOf rest
  | _ :: rest => chunksOf rest
  end.

(** A [start] body that, given whether [close()] was called already, never
    enqueues or closes after closing, and does close. *)
Fixpoint wellScripted (closed : bool) (acts : list SourceAction) : bool :=
  match acts with
  | [] => closed
  | Enqueue _ :: rest => negb closed && wellScripted closed rest
  | Sleep _ :: rest => wellScripted closed rest
  | Close :: rest => negb closed && wellScripted true rest
  end.

Fixpoint transformAll {T} (tf : chunk -> T * list chunk -> T * list chunk)
    (cs : list chunk) (st : T * list chunk) : T * list chunk :=
  match cs with
  | [] => st
  | c :: rest => transformAll tf rest (tf c st)
  end.

(** [transform] does nothing to the controller's queue but enqueue. *)
Definition onlyEnqueues {T} (tf : chunk -> T * list chunk -> T * list chunk) : Prop :=
  forall c t q, tf c (t, q) = (fst (tf c (t, [])), q ++ snd (tf c (t, []))).

Definition futureIn {T} (st : Pipeline T) : list chunk :=
  queue (source st) ++ chunksOf (pendingStart (source st)).

Definition futureOut {T} (st : Pipeline T) : list chunk :=
  snd (transformAll (transform (through st)) (futureIn st)
                    (tstate (through st), outQueue st)).

Definition expectedReceived {T} (st : Pipeline T) : list chunk :=
  received st ++ futureOut st.

Definition expectedHanded {T} (st : Pipeline T) : list PipeEvent :=
  handed st ++ map Handed (futureIn st) ++ (if outClosed st then [] else [SawClose]).

(** An upper bound on the moves left. *)
Definition movesLeft {T} (st : Pipeline T) : nat :=
  length (pendingStart (source st)) + length (futureIn st)
  + (if outClosed st then 0 else 1) + length (futureOut st)
  + (if readerDone st then 0 else 1).

Definition pipelineInv {T} (st : Pipeline T) : Prop :=
  errored (source st) = false /\
  wellScripted (closeRequested (source st)) (pendingStart (source st)) = true /\
  (outClosed st = true -> closeRequested (source st) = true /\ queue (source st) = []) /\
  (readerDone st = true -> outClosed st = true /\ outQueue st = []) /\
  onlyEnqueues (transform (through st)).

(** The decoder once it has output its first code point. *)
Definition markBomSeen (d : TextDecoder) : TextDecoder :=
  mkDecoder (codePoint d) (bytesSeen d) (bytesNeeded d)
            (lowerBoundary d) (upperBoundary d) true.

(** The characters numbers are printed with: digits, signs, the point, the
    [e] of the exponent form and the letters of [NaN] and [Infinity]. *)
Definition isPrinted (c : Z) : bool :=
  isDigit c || existsb (Z.eqb c) (lit "+-.eNaInfity").

(** * Properties *)

(** ** Zero, one and ten sequential steps *)

Lemma bind_Some {A B} (m : M A) (k : A -> M B) w a w1 :
  m w = Some (a, w1) -> bind m k w = k a w1.
Proof. intros H. unfold bind. now rewrite H. Qed.

Lemma bind_inv {A B} (m : M A) (k : A -> M B) w r :
  bind m k w = Some r -> exists a w1, m w = Some (a, w1) /\ k a w1 = Some r.
Proof.
  unfold bind. destruct (m w) as [[a w1]|] eqn:E; [|discriminate].
  intros H. now exists a, w1.
Qed.

Lemma bind_assoc {A B C} (m : M A) (k : A -> M B) (h : B -> M C) w :
  bind (bind m k) h w = bind m (fun a => bind (k a) h) w.
Proof. unfold bind. destruct (m w) as [[a w1]|]; reflexivity. Qed.

Lemma bind_congr {A B} (m : M A) (k k' : A -> M B) w :
  (forall a w1, k a w1 = k' a w1) -> bind m k w = bind m k' w.
Proof. intros H. unfold bind. destruct (m w) as [[a w1]|]; auto. Qed.

Lemma forRange_S {St} n i (body : Z -> St -> M St) s :
  forRange (S n) i body s = bind (body i s) (fun s' => forRange n (i + 1) body s').
Proof. reflexivity. Qed.

(** A loop whose body ignores the value carried so far delivers what its
    last turn delivers: the earlier values are overwritten. *)
Lemma forRange_overwrites {St} (m : M St) n : forall i s w,
  forRange (S n) i (fun _ _ => m) s w
  = bind (forRange n i (fun _ _ => m) s) (fun _ => m) w.
Proof.
  induction n as [|n IH]; intros i s w.
  - cbn. unfold bind, ret. destruct (m w) as [[a w1]|]; reflexivity.
  - rewrite forRange_S, (forRange_S n), bind_assoc.
    apply bind_congr. intros a w1. apply IH.
Qed.

(** The counting loop is the guarded loop: with the guard [i < count]
    evaluated at every turn, and fuel for one turn more than [count - i],
    the same result comes out. *)
Lemma forGuarded_forLt {St} (body : Z -> St -> M St) fuel : forall i count s w,
  (Z.to_nat (count - i) < fuel)%nat ->
  forGuarded fuel i count body s w = forLt i count body s w.
Proof.
  induction fuel as [|fuel IH]; intros i count s w Hfuel; [lia|].
  cbn [forGuarded]. unfold forLt. destruct (Z.ltb_spec i count) as [Hlt|Hge].
  - replace (Z.to_nat (count - i)) with (S (Z.to_nat (count - (i + 1)))) by lia.
    rewrite forRange_S. apply bind_congr. intros s' w'.
    rewrite IH by lia. reflexivity.
  - replace (Z.to_nat (count - i)) with O by lia. reflexivity.
Qed.

(** C7: for every double [n], [noStepsWorkflow n] returns [n * 2] and leaves
    the history as it found it (no step is invoked); [oneStepWorkflow n]
    returns [42 + n], the step [doWork] having been invoked exactly once and
    no other step at all.  The product and the sum are those of doubles: a
    half gives 1, the largest odd integer that is a double plus 42 is rounded
    to even, and twice 2^1023 is infinity. *)
Theorem simple_workflows_compose_zero_or_one_step (n : double) (o : list nat) :
  run (noStepsWorkflow n) o = Some ((n * 2)%float, initial o) /\
  stepsStarted (initial o) = 0%nat /\
  (exists w,
     run (oneStepWorkflow n) o = Some ((42 + n)%float, w) /\
     invocations doWork_fn w = 1%nat /\
     stepsStarted w = 1%nat /\
     history w = [Started doWork_fn 0; Observed 0]) /\
  run (noStepsWorkflow 0.5%float) o = Some (1%float, initial o) /\
  run (noStepsWorkflow 0x1p+1023%float) o = Some (infinity, initial o) /\
  run (oneStepWorkflow 9007199254740991%float) o
  = Some (9007199254741032%float, mkWorld 1 o [Started doWork_fn 0; Observed 0]).
Proof.
  split; [reflexivity|]. split; [reflexivity|]. split.
  - eexists. split; [vm_compute; reflexivity|]. repeat split.
  - repeat split; vm_compute; reflexivity.
Qed.

(** C9: [tenSequentialStepsWorkflow] invokes [doWork] ten times, one after the
    other, and returns 42: the value of the tenth step alone, not the sum 420
    of the ten values.  From any world the workflow is the same computation as
    nine awaited steps whose values are dropped, followed by a tenth whose
    value is returned. *)
Theorem tenSequential_returns_last_result_only (o : list nat) :
  (forall w0,
     tenSequentialStepsWorkflow w0
     = (forLt 0 9 (fun _ _ => p <- doWork ;; await p) 0 ;;;
        result <- (p <- doWork ;; await p) ;; ret result) w0) /\
  exists w,
    run tenSequentialStepsWorkflow o = Some (42, w) /\
    invocations doWork_fn w = 10%nat /\
    startedIds w = seq 0 10 /\
    observedIds w = seq 0 10 /\
    last (history w) = Some (Observed 9) /\
    42 <> 10 * 42.
Proof.
  split.
  - intros w0. unfold tenSequentialStepsWorkflow, forLt.
    change (Z.to_nat (10 - 0)) with 10%nat. change (Z.to_nat (9 - 0)) with 9%nat.
    rewrite <- bind_assoc. apply (f_equal (fun r => bind (fun _ => r) _ w0)).
    apply forRange_overwrites.
  - eexists. split; [vm_compute; reflexivity|]. repeat split. discriminate.
Qed.

Lemma map_is_fmap {A B} (f : A -> B) (l : list A) : map f l = f <$> l.
Proof. reflexivity. Qed.

(** *** Fan-out loops *)

Lemma fanned_S {A} (g : Z -> A) n i id0 :
  fanned g (S n) i id0 = mkPromise id0 (g i) :: fanned g n (i + 1) (S id0).
Proof.
  unfold fanned. cbn [seq map]. f_equal.
  - f_equal; [lia | f_equal; lia].
  - rewrite <- seq_shift, map_map. apply map_ext. intros k.
    f_equal; [lia | f_equal; lia].
Qed.

Lemma fanOut_spec {A} (f : StepName) (g : Z -> A) n : forall i acc w,
  forRange n i (fun i promises => p <- callStep f (g i) ;; ret (promises ++ [p])) acc w
  = Some (acc ++ fanned g n i (nextId w),
          mkWorld (nextId w + n) (oracle w)
                  (history w ++ map (Started f) (seq (nextId w) n))).
Proof.
  induction n as [|n IH]; intros i acc w.
  - cbn. unfold ret, fanned. cbn. rewrite !app_nil_r, Nat.add_0_r.
    now destruct w.
  - rewrite forRange_S, fanned_S.
    unfold bind at 1. cbn -[forRange fanned].
    rewrite IH. cbn [nextId oracle history seq map].
    rewrite <- !app_assoc. cbn [app].
    replace (nextId w + S n)%nat with (S (nextId w) + n)%nat by lia.
    reflexivity.
Qed.

(** *** [Promise.all] *)

Lemma choose_spec n w :
  (0 < n)%nat ->
  exists j, (j < n)%nat /\
    choose n w = Some (j, mkWorld (nextId w) (tl (oracle w)) (history w)).
Proof.
  intros Hn. exists (hd O (oracle w) mod n)%nat. split.
  - apply Nat.mod_upper_bound. lia.
  - unfold choose. destruct n; [lia | reflexivity].
Qed.

Lemma elem_of_delete_other {A} (l : list A) j x y :
  l !! j = Some y -> x ∈ l -> x <> y -> x ∈ delete j l.
Proof.
  intros Hj Hx Hne. apply delete_Permutation in Hj.
  rewrite Hj in Hx. apply elem_of_cons in Hx as [->|Hx]; [contradiction | exact Hx].
Qed.

Lemma elem_of_delete_sub {A} (l : list A) j x : x ∈ delete j l -> x ∈ l.
Proof.
  intros Hx. eapply elem_of_sublist; [exact Hx|]. apply sublist_delete.
Qed.

Lemma allSome_map_Some {A B} (f : A -> B) (l : list A) :
  allSome (map (fun a => Some (f a)) l) = Some (map f l).
Proof. induction l as [|a l IH]; cbn; [reflexivity | now rewrite IH]. Qed.

Lemma snd_imap_pair {A} (l : list A) : forall f : nat -> nat,
  map snd (imap (fun i x => (f i, x)) l) = l.
Proof.
  induction l as [|x l IH]; intros f; [reflexivity|].
  cbn. f_equal. apply (IH (f ∘ S)).
Qed.

Section PromiseAll.
Context {A : Type}.
Variable promises : list (Promise A).

Lemma settleAll_spec n : forall (pending : list (nat * Promise A)) values w,
  length pending = n ->
  length values = length promises ->
  (forall idx p, (idx, p) ∈ pending -> promises !! idx = Some p) ->
  (forall idx p, promises !! idx = Some p ->
                 (idx, p) ∈ pending \/ values !! idx = Some (Some (pval p))) ->
  exists order,
    order ≡ₚ map snd pending /\
    settleAll n pending values w
    = Some (map (fun p => Some (pval p)) promises,
            mkWorld (nextId w) (drop n (oracle w))
                    (history w ++ map (fun p => Observed (pid p)) order)).
Proof.
  induction n as [|n IH]; intros pending values w Hlen Hvals Hin Hcov.
  - destruct pending; [|discriminate]. exists []. split; [reflexivity|].
    cbn. unfold ret. rewrite app_nil_r, drop_0. f_equal. f_equal; [|now destruct w].
    apply list_eq. intros i. rewrite map_is_fmap, list_lookup_fmap.
    destruct (promises !! i) as [p|] eqn:Hp; cbn.
    + destruct (Hcov i p Hp) as [Hbad|Hv]; [|exact Hv].
      now apply elem_of_nil in Hbad.
    + apply lookup_ge_None. apply lookup_ge_None in Hp. lia.
  - destruct (choose_spec (length pending) w) as (j & Hj & Hch); [lia|].
    destruct (lookup_lt_is_Some_2 pending j Hj) as [[idx p] Hjp].
    assert (Hp : promises !! idx = Some p).
    { apply Hin. eapply list_elem_of_lookup_2; eauto. }
    destruct (IH (delete j pending) (<[idx := Some (pval p)]> values)
                 (mkWorld (nextId w) (tl (oracle w)) (history w ++ [Observed (pid p)])))
      as (order & Hperm & Hrun).
    + rewrite length_delete by eauto. lia.
    + now rewrite length_insert.
    + intros idx' p' Hin'. apply Hin. eapply elem_of_delete_sub; eauto.
    + intros idx' p' Hp'. destruct (decide (idx' = idx)) as [->|Hne].
      * right. assert (p' = p) by congruence. subst p'.
        apply list_lookup_insert_eq. apply lookup_lt_Some in Hp. lia.
      * destruct (Hcov idx' p' Hp') as [Hpend|Hv].
        -- left. eapply elem_of_delete_other; eauto. congruence.
        -- right. now rewrite list_lookup_insert_ne.
    + exists (p :: order). split.
      * rewrite (map_is_fmap snd pending), (delete_Permutation pending j (idx, p) Hjp).
        cbn. constructor. exact Hperm.
      * cbn [settleAll]. rewrite (bind_Some _ _ _ _ _ Hch). rewrite Hjp.
        unfold bind at 1, record at 1. cbn [nextId oracle history].
        rewrite Hrun. cbn [nextId oracle history map]. rewrite <- app_assoc.
        replace (drop (S n) (oracle w)) with (drop n (tl (oracle w)))
          by (destruct (oracle w); [destruct n; reflexivity | reflexivity]).
        reflexivity.
Qed.

Lemma Promise_all_spec w :
  exists order,
    order ≡ₚ promises /\
    Promise_all promises w
    = Some (map pval promises,
            mkWorld (nextId w) (drop (length promises) (oracle w))
                    (history w ++ map (fun p => Observed (pid p)) order)).
Proof.
  destruct (settleAll_spec (length promises) (imap pair promises)
              (replicate (length promises) None) w) as (order & Hperm & Hrun).
  - apply length_imap.
  - apply length_replicate.
  - intros idx p Hin. apply elem_of_lookup_imap in Hin as (i & y & Heq & Hy).
    now inversion Heq; subst.
  - intros idx p Hp. left. apply elem_of_lookup_imap. eauto.
  - exists order. split.
    + rewrite Hperm. now rewrite <- (snd_imap_pair promises id) at 2.
    + unfold Promise_all. rewrite (bind_Some _ _ _ _ _ Hrun).
      now rewrite allSome_map_Some.
Qed.

End PromiseAll.

(** *** Reading a history *)

Lemma startedIds_app h1 h2 n o n' o' :
  startedIds (mkWorld n o (h1 ++ h2))
  = startedIds (mkWorld n' o' h1) ++ startedIds (mkWorld n' o' h2).
Proof. unfold startedIds. cbn. apply omap_app. Qed.

Lemma observedIds_app h1 h2 n o n' o' :
  observedIds (mkWorld n o (h1 ++ h2))
  = observedIds (mkWorld n' o' h1) ++ observedIds (mkWorld n' o' h2).
Proof. unfold observedIds. cbn. apply omap_app. Qed.

Lemma startedIds_Started f ids n o :
  startedIds (mkWorld n o (map (Started f) ids)) = ids.
Proof. unfold startedIds. cbn. induction ids; cbn; [reflexivity | now f_equal]. Qed.

Lemma observedIds_Started f ids n o :
  observedIds (mkWorld n o (map (Started f) ids)) = [].
Proof. unfold observedIds. cbn. induction ids; cbn; [reflexivity | assumption]. Qed.

Lemma startedIds_Observed {A} (ps : list (Promise A)) n o :
  startedIds (mkWorld n o (map (fun p => Observed (pid p)) ps)) = [].
Proof. unfold startedIds. cbn. induction ps; cbn; [reflexivity | assumption]. Qed.

Lemma observedIds_Observed {A} (ps : list (Promise A)) n o :
  observedIds (mkWorld n o (map (fun p => Observed (pid p)) ps)) = map pid ps.
Proof. unfold observedIds. cbn. induction ps; cbn; [reflexivity | now f_equal]. Qed.

Lemma invocations_Started f ids n o :
  invocations f (mkWorld n o (map (Started f) ids)) = length ids.
Proof.
  unfold invocations. cbn. induction ids as [|i ids IH]; [reflexivity|].
  cbn. destruct f; cbn; now rewrite IH.
Qed.

Lemma invocations_app f h1 h2 n o :
  invocations f (mkWorld n o (h1 ++ h2))
  = (invocations f (mkWorld n o h1) + invocations f (mkWorld n o h2))%nat.
Proof. unfold invocations. cbn. now rewrite List.filter_app, length_app. Qed.

Lemma invocations_Observed {A} f (ps : list (Promise A)) n o :
  invocations f (mkWorld n o (map (fun p => Observed (pid p)) ps)) = O.
Proof.
  unfold invocations. cbn. induction ps; cbn; [reflexivity|].
  destruct f; assumption.
Qed.

Lemma pid_fanned {A} (g : Z -> A) n i :
  map pid (fanned g n i 0) = seq 0 n.
Proof. unfold fanned. rewrite map_map. cbn. apply map_id. Qed.

Lemma pval_fanned {A} (g : Z -> A) n :
  map pval (fanned g n 0 0) = map (fun k => g (Z.of_nat k)) (seq 0 n).
Proof. unfold fanned. rewrite map_map. reflexivity. Qed.

(** Fan-out followed by a combined wait, from the initial world. *)
Lemma fanOut_all_run {A} (f : StepName) (g : Z -> A) (count : Z) (o : list nat) :
  exists w,
    run (promises <- forLt 0 count
                       (fun i promises => p <- callStep f (g i) ;; ret (promises ++ [p])) [] ;;
         Promise_all promises) o
    = Some (map (fun k => g (Z.of_nat k)) (seq 0 (Z.to_nat count)), w) /\
    invocations f w = Z.to_nat count /\
    startedIds w = seq 0 (Z.to_nat count) /\
    observedIds w ≡ₚ startedIds w.
Proof.
  unfold run, forLt. rewrite Z.sub_0_r. set (n := Z.to_nat count).
  destruct (Promise_all_spec (fanned g n 0 0)
              (mkWorld (0 + n) o (map (Started f) (seq 0 n))))
    as (order & Hperm & Hall).
  eexists. split; [|split; [|split]].
  - erewrite bind_Some; [|apply fanOut_spec]. cbn [nextId oracle history initial app].
    rewrite Hall. now rewrite pval_fanned.
  - cbn [nextId oracle history app].
    now rewrite invocations_app, invocations_Started, invocations_Observed, length_seq.
  - cbn [nextId oracle history app].
    rewrite (startedIds_app _ _ _ _ O o), startedIds_Started, startedIds_Observed.
    apply app_nil_r.
  - cbn [nextId oracle history app].
    rewrite (startedIds_app _ _ _ _ O o), startedIds_Started, startedIds_Observed.
    rewrite (observedIds_app _ _ _ _ O o), observedIds_Started, observedIds_Observed.
    rewrite app_nil_r. cbn [app]. rewrite Hperm. now rewrite pid_fanned.
Qed.

(** C2: a combined wait over a fixed set of started units returns their values
    in submission order whatever order they complete in, and every started
    unit is observed exactly once: [Promise_all] yields [map pval promises]
    under every oracle; [tenParallelStepsWorkflow] returns [10 * 42 = 420]
    with the ten started promises observed once each; and for [count >= 0],
    [promiseAllStressTestWorkflow count] returns [count], the awaited results
    being [0; 1; ...; count - 1] in that order. *)
Theorem combined_wait_returns_in_submission_order (o : list nat) :
  (forall (A : Type) (promises : list (Promise A)) (w : World),
     exists w', Promise_all promises w = Some (map pval promises, w')) /\
  (exists w,
     run tenParallelStepsWorkflow o = Some (10 * 42, w) /\
     invocations doWork_fn w = 10%nat /\
     startedIds w = seq 0 10 /\
     observedIds w ≡ₚ startedIds w) /\
  (forall count, 0 <= count ->
     exists w,
       run (promiseAllStressTest_results count) o
       = Some (map Z.of_nat (seq 0 (Z.to_nat count)), w) /\
       run (promiseAllStressTestWorkflow count) o = Some (count, w) /\
       invocations stressTestStep_fn w = Z.to_nat count /\
       startedIds w = seq 0 (Z.to_nat count) /\
       observedIds w ≡ₚ startedIds w).
Proof.
  split; [|split].
  - intros A promises w. destruct (Promise_all_spec promises w) as (order & _ & H).
    eauto.
  - destruct (fanOut_all_run doWork_fn (fun _ => 42) 10 o) as (w & Hrun & Hinv & Hs & Hobs).
    exists w. repeat split; try assumption.
    unfold tenParallelStepsWorkflow, run in *.
    rewrite <- bind_assoc. erewrite bind_Some; [|exact Hrun]. reflexivity.
  - intros count Hcount.
    destruct (fanOut_all_run stressTestStep_fn (fun i => i) count o)
      as (w & Hrun & Hinv & Hs & Hobs).
    exists w. repeat split; try assumption.
    unfold promiseAllStressTestWorkflow, run in *.
    erewrite bind_Some; [|exact Hrun]. unfold ret.
    rewrite length_map, length_seq. do 2 f_equal. lia.
Qed.

Lemma combined_wait_witness :
  0 <= 3 /\
  exists w,
    run (promiseAllStressTest_results 3) [2; 0; 1]%nat
    = Some (map Z.of_nat (seq 0 (Z.to_nat 3)), w) /\
    run (promiseAllStressTestWorkflow 3) [2; 0; 1]%nat = Some (3, w) /\
    invocations stressTestStep_fn w = Z.to_nat 3 /\
    startedIds w = seq 0 (Z.to_nat 3) /\
    observedIds w ≡ₚ startedIds w.
Proof.
  split; [lia|].
  apply (proj2 (proj2 (combined_wait_returns_in_submission_order [2; 0; 1]%nat)) 3).
  lia.
Defined.

(** *** The tracking map *)

Lemma Map_set_fresh {V} k (v : V) m :
  k ∉ Map_keys m -> Map_set k v m = m ++ [(k, v)].
Proof.
  induction m as [|[k' v'] m IH]; intros Hk; [reflexivity|].
  cbn in *. apply not_elem_of_cons in Hk as [Hne Hk].
  destruct (Z.eqb_spec k' k); [congruence|]. now rewrite IH.
Qed.

Lemma Map_delete_absent {V} k (m : JSMap V) :
  k ∉ Map_keys m -> Map_delete k m = m.
Proof.
  induction m as [|[k' v'] m IH]; intros Hk; [reflexivity|].
  cbn in *. apply not_elem_of_cons in Hk as [Hne Hk].
  destruct (Z.eqb_spec k' k); [congruence|]. now rewrite IH.
Qed.

Lemma Map_delete_lookup {V} (m : list (Z * V)) : forall j k v,
  NoDup (Map_keys m) -> m !! j = Some (k, v) -> Map_delete k m = delete j m.
Proof.
  induction m as [|[k' v'] m IH]; intros j k v Hnd Hj; [discriminate|].
  apply NoDup_cons in Hnd as [Hk' Hnd].
  destruct j as [|j].
  - inversion Hj; subst. cbn. now rewrite Z.eqb_refl.
  - assert (Hj' : m !! j = Some (k, v)) by exact Hj.
    cbn. destruct (Z.eqb_spec k' k) as [->|Hne].
    + exfalso. apply Hk'. apply list_elem_of_lookup_2 with j.
      change ((fst <$> m) !! j = Some k).
      now rewrite list_lookup_fmap, Hj'.
    + f_equal. eapply IH; eauto.
Qed.

Lemma Map_delete_keeps {V} k (m : JSMap V) k' v :
  (k', v) ∈ m -> k' <> k -> (k', v) ∈ Map_delete k m.
Proof.
  induction m as [|[k1 v1] m IH]; intros Hin Hne; [now apply elem_of_nil in Hin|].
  cbn. apply elem_of_cons in Hin as [Heq|Hin].
  - inversion Heq; subst. destruct (Z.eqb_spec k1 k); [congruence|]. left.
  - destruct (Z.eqb_spec k1 k); [exact Hin|]. right. auto.
Qed.

Lemma Map_delete_sub {V} k (m : JSMap V) e : e ∈ Map_delete k m -> e ∈ m.
Proof.
  induction m as [|[k1 v1] m IH]; intros Hin; [exact Hin|].
  cbn in Hin. destruct (Z.eqb_spec k1 k).
  - now right.
  - apply elem_of_cons in Hin as [->|Hin]; [left | right; auto].
Qed.

Lemma Map_delete_NoDup {V} k (m : JSMap V) :
  NoDup (Map_keys m) -> NoDup (Map_keys (Map_delete k m)).
Proof.
  induction m as [|[k1 v1] m IH]; intros Hnd; [exact Hnd|].
  cbn in *. apply NoDup_cons in Hnd as [Hk1 Hnd].
  destruct (Z.eqb_spec k1 k); [exact Hnd|].
  cbn. apply NoDup_cons. split; [|auto].
  intros Hin. apply Hk1. unfold Map_keys in *. rewrite map_is_fmap in *.
  apply list_elem_of_fmap in Hin as ([k2 v2] & -> & Hin).
  apply Map_delete_sub in Hin. apply list_elem_of_fmap. now exists (k2, v2).
Qed.

Lemma Map_has_elem {V} k (v : V) m : (k, v) ∈ m -> Map_has k m = true.
Proof.
  intros Hin. unfold Map_has. apply existsb_exists. exists (k, v). split.
  - now apply list_elem_of_In.
  - apply Z.eqb_refl.
Qed.

(** *** Filling the map *)

Lemma filled_S g n i id0 :
  filled g (S n) i id0 = (i, mkPromise id0 (g i)) :: filled g n (i + 1) (S id0).
Proof.
  unfold filled. cbn [seq map]. f_equal.
  - rewrite Z.add_0_r, Nat.add_0_r. reflexivity.
  - rewrite <- seq_shift, map_map. apply map_ext. intros k.
    replace (i + Z.of_nat (S k)) with (i + 1 + Z.of_nat k) by lia.
    now replace (id0 + S k)%nat with (S id0 + k)%nat by lia.
Qed.

Lemma Map_keys_filled g n i id0 :
  Map_keys (filled g n i id0) = map (fun k => i + Z.of_nat k) (seq 0 n).
Proof. unfold Map_keys, filled. now rewrite map_map. Qed.

Lemma raceFill_loop f g n : forall i m w,
  (forall k, k ∈ Map_keys m -> k < i) ->
  forRange n i (fun i runningTasks =>
                  p <- callStep f (g i) ;; ret (Map_set i p runningTasks)) m w
  = Some (m ++ filled g n i (nextId w),
          mkWorld (nextId w + n) (oracle w)
                  (history w ++ map (Started f) (seq (nextId w) n))).
Proof.
  induction n as [|n IH]; intros i m w Hlt.
  - cbn. unfold ret, filled. cbn. rewrite !app_nil_r, Nat.add_0_r. now destruct w.
  - rewrite forRange_S, filled_S.
    unfold bind at 1. cbn -[forRange filled].
    rewrite Map_set_fresh by (intros Hin; apply Hlt in Hin; lia).
    rewrite IH.
    + cbn [nextId oracle history seq map].
      rewrite <- !app_assoc. cbn [app].
      now replace (nextId w + S n)%nat with (S (nextId w) + n)%nat by lia.
    + intros k Hk. unfold Map_keys in Hk. rewrite map_app in Hk.
      apply elem_of_app in Hk as [Hk|Hk].
      * apply Hlt in Hk. lia.
      * cbn in Hk. apply list_elem_of_singleton in Hk. lia.
Qed.

Lemma raceFill_spec g count w :
  raceFill (fun i => callStep stressTestStep_fn (g i)) count w
  = Some (filled g (Z.to_nat count) 0 (nextId w),
          mkWorld (nextId w + Z.to_nat count) (oracle w)
                  (history w ++ map (Started stressTestStep_fn)
                                    (seq (nextId w) (Z.to_nat count)))).
Proof.
  unfold raceFill, forLt. rewrite Z.sub_0_r.
  rewrite raceFill_loop; [reflexivity|].
  intros k Hk. now apply elem_of_nil in Hk.
Qed.

Lemma filled_NoDup g n i id0 : NoDup (Map_keys (filled g n i id0)).
Proof.
  rewrite Map_keys_filled, map_is_fmap. apply NoDup_fmap_2.
  - intros a b. lia.
  - apply NoDup_seq.
Qed.

Lemma elem_of_filled g n i id0 k p :
  (k, p) ∈ filled g n i id0 <->
  exists j, (j < n)%nat /\ k = i + Z.of_nat j /\ p = mkPromise (id0 + j)%nat (g k).
Proof.
  unfold filled. rewrite map_is_fmap, list_elem_of_fmap. split.
  - intros (j & Heq & Hj). apply elem_of_seq in Hj. inversion Heq; subst.
    exists j. repeat split. lia.
  - intros (j & Hj & -> & ->). exists j. split; [reflexivity|].
    apply elem_of_seq. lia.
Qed.

(** *** The drain loop *)

Lemma drop_tl {A} n (l : list A) : drop n (tl l) = drop (S n) l.
Proof. destruct l; [destruct n|]; reflexivity. Qed.


(** A turn over a map that is not empty: the oracle names an entry, the
    turn deletes the key equal to the value that entry's promise gives. *)
Lemma raceTurn_spec (tasks : list (Z * Promise Z)) done w :
  tasks <> [] ->
  exists j k p,
    tasks !! j = Some (k, p) /\
    raceTurn tasks done w
    = Some ((Map_delete (pval p) tasks, done ++ [pval p]),
            mkWorld (nextId w) (tl (oracle w)) (history w ++ [Observed (pid p)])).
Proof.
  intros Hne. destruct (choose_spec (length (Map_values tasks)) w) as (j & Hj & Hch).
  { unfold Map_values. rewrite length_map. destruct tasks; [congruence | cbn; lia]. }
  unfold Map_values in Hj. rewrite length_map in Hj.
  destruct (lookup_lt_is_Some_2 tasks j Hj) as [[k p] Hjp].
  exists j, k, p. split; [exact Hjp|].
  unfold raceTurn, Promise_race.
  rewrite bind_assoc, (bind_Some _ _ _ _ _ Hch).
  change (Map_values tasks) with (snd <$> tasks).
  rewrite list_lookup_fmap, Hjp. reflexivity.
Qed.

Lemma Map_size_pos {V} (m : JSMap V) : (Map_size m >? 0) = true <-> m <> [].
Proof.
  unfold Map_size. rewrite Z.gtb_ltb, Z.ltb_lt.
  destruct m; cbn [length]; split; intros H; try congruence; lia.
Qed.

Lemma raceDrain_S fuel tasks done w :
  raceDrain (S fuel) tasks done w
  = if Map_size tasks >? 0
    then bind (raceTurn tasks done) (fun st => raceDrain fuel (fst st) (snd st)) w
    else Some ((tasks, done), w).
Proof. cbn [raceDrain]. destruct (Map_size tasks >? 0); reflexivity. Qed.

(** With every entry stored under the value its promise gives, the loop
    empties the map in as many turns as it has entries. *)
Lemma raceDrain_selfKeyed fuel : forall (tasks : list (Z * Promise Z)) done w,
  NoDup (Map_keys tasks) ->
  selfKeyed tasks ->
  (length tasks < fuel)%nat ->
  exists order,
    order ≡ₚ tasks /\
    raceDrain fuel tasks done w
    = Some (([], done ++ map fst order),
            mkWorld (nextId w) (drop (length tasks) (oracle w))
                    (history w ++ map (fun e => Observed (pid (snd e))) order)).
Proof.
  induction fuel as [|fuel IH]; intros tasks done w Hnd Hself Hfuel; [lia|].
  rewrite raceDrain_S.
  destruct tasks as [|e tasks'] eqn:Etasks.
  - exists []. split; [reflexivity|]. cbn. rewrite !app_nil_r. now destruct w.
  - rewrite <- Etasks in *. assert (Hne : tasks <> []) by (subst; discriminate).
    rewrite (proj2 (Map_size_pos tasks) Hne).
    destruct (raceTurn_spec tasks done w Hne) as (j & k & p & Hjp & Hturn).
    assert (Hin : (k, p) ∈ tasks) by (eapply list_elem_of_lookup_2; eauto).
    rewrite (Hself k p Hin) in Hturn.
    rewrite (Map_delete_lookup tasks j k p Hnd Hjp) in Hturn.
    rewrite (bind_Some _ _ _ _ _ Hturn). cbn [fst snd].
    assert (Hlen : length (delete j tasks) = pred (length tasks)).
    { rewrite length_delete by eauto. lia. }
    destruct (IH (delete j tasks) (done ++ [k])
                (mkWorld (nextId w) (tl (oracle w)) (history w ++ [Observed (pid p)])))
      as (order & Hperm & Hrun).
    + rewrite <- (Map_delete_lookup tasks j k p Hnd Hjp). now apply Map_delete_NoDup.
    + intros k' p' Hin'. apply Hself. eapply elem_of_delete_sub; eauto.
    + rewrite Hlen. subst tasks. cbn in *. lia.
    + exists ((k, p) :: order). split.
      * rewrite (delete_Permutation tasks j (k, p) Hjp). now constructor.
      * rewrite Hrun. cbn [nextId oracle history map fst snd].
        rewrite <- !app_assoc. cbn [app]. rewrite Hlen.
        replace (drop (length tasks) (oracle w))
          with (drop (pred (length tasks)) (tl (oracle w))); [reflexivity|].
        subst tasks. apply drop_tl.
Qed.

(** Conversely, if the loop returns at all, every entry of the map it
    started from was stored under the value its promise gives. *)
Lemma raceDrain_returns_selfKeyed fuel : forall (tasks : list (Z * Promise Z)) done w r,
  NoDup (Map_keys tasks) ->
  raceDrain fuel tasks done w = Some r ->
  selfKeyed tasks.
Proof.
  induction fuel as [|fuel IH]; intros tasks done w r Hnd Hrun; [discriminate|].
  rewrite raceDrain_S in Hrun.
  destruct tasks as [|e tasks'] eqn:Etasks.
  - intros k p Hin. now apply elem_of_nil in Hin.
  - rewrite <- Etasks in *. assert (Hne : tasks <> []) by (subst; discriminate).
    rewrite (proj2 (Map_size_pos tasks) Hne) in Hrun.
    destruct (raceTurn_spec tasks done w Hne) as (j & k & p & Hjp & Hturn).
    rewrite (bind_Some _ _ _ _ _ Hturn) in Hrun. cbn [fst snd] in Hrun.
    apply IH in Hrun; [|now apply Map_delete_NoDup].
    assert (Hin : (k, p) ∈ tasks) by (eapply list_elem_of_lookup_2; eauto).
    assert (Hkp : pval p = k).
    { destruct (decide (pval p = k)) as [|Hne']; [assumption|].
      apply Hrun. apply Map_delete_keeps; [exact Hin | congruence]. }
    intros k' p' Hin'. destruct (decide (k' = k)) as [->|Hk'].
    + assert (p' = p); [|now subst].
      apply list_elem_of_lookup_1 in Hin' as [j' Hj'].
      assert (j' = j).
      { eapply NoDup_lookup; [exact Hnd| |].
        - change (Map_keys tasks) with (fst <$> tasks).
          rewrite list_lookup_fmap, Hj'. reflexivity.
        - change (Map_keys tasks) with (fst <$> tasks).
          rewrite list_lookup_fmap, Hjp. reflexivity. }
      subst j'. congruence.
    + apply Hrun. apply Map_delete_keeps; [exact Hin' | congruence].
Qed.

Lemma filled_selfKeyed g n :
  selfKeyed (filled g n 0 0) <-> (forall i, 0 <= i < Z.of_nat n -> g i = i).
Proof.
  split.
  - intros Hself i Hi.
    apply (Hself i (mkPromise (Z.to_nat i) (g i))).
    apply elem_of_filled. exists (Z.to_nat i).
    split; [lia | split; [lia | reflexivity]].
  - intros Hg k p Hin. apply elem_of_filled in Hin as (j & Hj & -> & ->).
    cbn. apply Hg. lia.
Qed.

Lemma raceTurn_keeps_invariant (tasks : list (Z * Promise Z)) done w tasks' done' w' :
  tasks <> [] ->
  raceTurn tasks done w = Some ((tasks', done'), w') ->
  NoDup (Map_keys tasks) /\ selfKeyed tasks ->
  NoDup (Map_keys tasks') /\ selfKeyed tasks'.
Proof.
  intros Hne Hturn [Hnd Hself].
  destruct (raceTurn_spec tasks done w Hne) as (j & k & p & Hjp & Hturn').
  rewrite Hturn' in Hturn. inversion Hturn; subst. split.
  - now apply Map_delete_NoDup.
  - intros k' p' Hin. apply Hself. eapply Map_delete_sub; eauto.
Qed.

Lemma DrainReaches_invariant count o tasks done w :
  DrainReaches count o tasks done w ->
  NoDup (Map_keys tasks) /\ selfKeyed tasks.
Proof.
  induction 1 as [tasks w Hfill | tasks done w tasks' done' w' Hreach IH Hpos Hturn].
  - pose proof (eq_trans (eq_sym Hfill) (raceFill_spec (fun i => i) count (initial o))) as E.
    inversion E; subst. split; [apply filled_NoDup|].
    apply filled_selfKeyed. reflexivity.
  - eapply raceTurn_keeps_invariant; eauto. now apply Map_size_pos.
Qed.

(** C1: for [count >= 0] and any oracle, [promiseRaceStressTestLargeWorkflow
    count] terminates (any fuel above [count] suffices): the map holds one
    entry per started unit, the loop leaves it empty, the drained list holds
    every key exactly once (it is a permutation of the keys, so every entry
    was deleted once), in the order the runtime recorded the completions, and
    the workflow returns [count]. *)
Theorem promiseRace_drains_and_terminates (count : Z) (fuel : nat) (o : list nat) :
  0 <= count ->
  (Z.to_nat count < fuel)%nat ->
  exists tasks w1 done w2,
    raceFill stressTestStep count (initial o) = Some (tasks, w1) /\
    Map_keys tasks = map Z.of_nat (seq 0 (Z.to_nat count)) /\
    startedIds w1 = seq 0 (Z.to_nat count) /\
    raceDrain fuel tasks [] w1 = Some (([], done), w2) /\
    done ≡ₚ Map_keys tasks /\
    observedIds w2 = map Z.to_nat done /\
    run (promiseRaceStressTestLargeWorkflow fuel count) o = Some (count, w2).
Proof.
  intros Hcount Hfuel. set (n := Z.to_nat count) in *.
  pose proof (raceFill_spec (fun i => i) count (initial o)) as Hfill.
  fold n in Hfill. cbn [nextId oracle history initial app Nat.add] in Hfill.
  set (tasks := filled (fun i => i) n 0 0) in *.
  set (w1 := mkWorld n o (map (Started stressTestStep_fn) (seq 0 n))) in *.
  destruct (raceDrain_selfKeyed fuel tasks [] w1) as (order & Hperm & Hrun).
  { apply filled_NoDup. }
  { apply filled_selfKeyed. reflexivity. }
  { unfold tasks, filled. now rewrite length_map, length_seq. }
  cbn [app] in Hrun.
  assert (Hlen : length order = n).
  { rewrite Hperm. unfold tasks, filled. now rewrite length_map, length_seq. }
  exists tasks, w1, (map fst order). eexists.
  split; [exact Hfill|]. split; [|split; [|split; [exact Hrun|split; [|split]]]].
  - unfold tasks. rewrite Map_keys_filled. apply map_ext. intros k. lia.
  - unfold w1. apply startedIds_Started.
  - unfold Map_keys. rewrite !map_is_fmap. now rewrite Hperm.
  - unfold w1. cbn [nextId oracle history].
    rewrite (observedIds_app _ _ _ _ O o), observedIds_Started. cbn [app].
    rewrite <- (map_map snd (fun p => Observed (pid p))), observedIds_Observed.
    rewrite !map_map. apply map_ext_in. intros [k p] Hin.
    apply list_elem_of_In in Hin. rewrite Hperm in Hin.
    apply elem_of_filled in Hin as (j & Hj & -> & ->). cbn. lia.
  - unfold promiseRaceStressTestLargeWorkflow, raceWorkflow, run.
    rewrite (bind_Some _ _ _ _ _ Hfill), (bind_Some _ _ _ _ _ Hrun).
    unfold ret. cbn [snd]. rewrite length_map, Hlen. do 2 f_equal. lia.
Qed.

Lemma promiseRace_witness :
  exists tasks w1 done w2,
    raceFill stressTestStep 3 (initial [1; 1; 0]%nat) = Some (tasks, w1) /\
    Map_keys tasks = map Z.of_nat (seq 0 (Z.to_nat 3)) /\
    startedIds w1 = seq 0 (Z.to_nat 3) /\
    raceDrain 4 tasks [] w1 = Some (([], done), w2) /\
    done ≡ₚ Map_keys tasks /\
    observedIds w2 = map Z.to_nat done /\
    run (promiseRaceStressTestLargeWorkflow 4 3) [1; 1; 0]%nat = Some (3, w2).
Proof.
  apply (promiseRace_drains_and_terminates 3 4 [1; 1; 0]%nat); [lia | cbn; lia].
Defined.

(** C8: the drain loop terminates exactly because the step returns the key
    its promise is stored under.  For a step returning [g i] at index [i], some
    run of the workflow returns if and only if [g i = i] for every started
    index, and then every run with fuel above [count] returns.  With
    [stressTestStep], which returns its argument, at the head of every turn
    the entries are stored under the value their promise gives; the result of
    the race is then a key of the map, deleting it removes exactly that
    entry, and the size of the map goes down by one. *)
Theorem drain_terminates_because_step_returns_its_key (count : Z) :
  (forall g : Z -> Z,
     ((exists o fuel r, run (raceWorkflowReturning g fuel count) o = Some r)
      <-> (forall i, 0 <= i < count -> g i = i)) /\
     ((forall i, 0 <= i < count -> g i = i)
      -> forall o fuel, (Z.to_nat count < fuel)%nat ->
         exists w, run (raceWorkflowReturning g fuel count) o
                   = Some (Z.of_nat (Z.to_nat count), w))) /\
  (forall i w, exists w', stressTestStep i w = Some (mkPromise (nextId w) i, w')) /\
  (forall o tasks done w,
     DrainReaches count o tasks done w ->
     selfKeyed tasks /\
     ((Map_size tasks >? 0) = true ->
      exists result tasks' w',
        raceTurn tasks done w = Some ((tasks', done ++ [result]), w') /\
        Map_has result tasks = true /\
        tasks' = Map_delete result tasks /\
        Map_size tasks' = Map_size tasks - 1)).
Proof.
  split; [|split].
  - intros g.
    assert (Hterm : (forall i, 0 <= i < count -> g i = i) ->
                    forall o fuel, (Z.to_nat count < fuel)%nat ->
                    exists w, run (raceWorkflowReturning g fuel count) o
                              = Some (Z.of_nat (Z.to_nat count), w)).
    { intros Hg o fuel Hfuel.
      pose proof (raceFill_spec g count (initial o)) as Hfill.
      destruct (raceDrain_selfKeyed fuel (filled g (Z.to_nat count) 0 0) []
                  (mkWorld (0 + Z.to_nat count) o
                     ([] ++ map (Started stressTestStep_fn) (seq 0 (Z.to_nat count)))))
        as (order & Hperm & Hrun).
      { apply filled_NoDup. }
      { apply filled_selfKeyed. intros i Hi. apply Hg. lia. }
      { unfold filled. now rewrite length_map, length_seq. }
      assert (Hlen : length order = Z.to_nat count).
      { rewrite Hperm. unfold filled. now rewrite length_map, length_seq. }
      eexists. unfold raceWorkflowReturning, raceWorkflow, run.
      rewrite (bind_Some _ _ _ _ _ Hfill). cbn [nextId oracle history initial].
      rewrite (bind_Some _ _ _ _ _ Hrun). unfold ret. cbn [snd app].
      rewrite length_map, Hlen. reflexivity. }
    split; [split|exact Hterm].
    + intros (o & fuel & r & Hrun) i Hi.
      unfold raceWorkflowReturning, raceWorkflow, run in Hrun.
      apply bind_inv in Hrun as (tasks & w1 & Hfill & Hrun).
      apply bind_inv in Hrun as (st & w2 & Hdrain & _).
      rewrite raceFill_spec in Hfill. inversion Hfill; subst.
      apply raceDrain_returns_selfKeyed in Hdrain; [|apply filled_NoDup].
      apply (proj1 (filled_selfKeyed g (Z.to_nat count)) Hdrain). lia.
    + intros Hg. destruct (Hterm Hg [] (S (Z.to_nat count))) as [w Hw]; [lia|].
      eauto.
  - intros i w. eexists. reflexivity.
  - intros o tasks done w Hreach.
    destruct (DrainReaches_invariant _ _ _ _ _ Hreach) as [Hnd Hself].
    split; [exact Hself|]. intros Hpos. apply Map_size_pos in Hpos.
    destruct (raceTurn_spec tasks done w Hpos) as (j & k & p & Hjp & Hturn).
    assert (Hin : (k, p) ∈ tasks) by (eapply list_elem_of_lookup_2; eauto).
    rewrite (Hself k p Hin) in Hturn.
    exists k, (Map_delete k tasks). eexists. split; [exact Hturn|].
    split; [eapply Map_has_elem; eauto|]. split; [reflexivity|].
    rewrite (Map_delete_lookup tasks j k p Hnd Hjp). unfold Map_size.
    rewrite length_delete by eauto.
    apply lookup_lt_Some in Hjp. lia.
Qed.

Lemma drain_turn_witness :
  selfKeyed (filled (fun i => i) 2 0 0) /\
  ((Map_size (filled (fun i => i) 2 0 0) >? 0) = true ->
   exists result tasks' w',
     raceTurn (filled (fun i => i) 2 0 0) []
              (mkWorld 2 [1]%nat (map (Started stressTestStep_fn) (seq 0 2)))
     = Some ((tasks', [] ++ [result]), w') /\
     Map_has result (filled (fun i => i) 2 0 0) = true /\
     tasks' = Map_delete result (filled (fun i => i) 2 0 0) /\
     Map_size tasks' = Map_size (filled (fun i => i) 2 0 0) - 1).
Proof.
  apply (proj2 (proj2 (drain_terminates_because_step_returns_its_key 2)) [1]%nat).
  apply reaches_filled. reflexivity.
Defined.

(** ** Text *)

Lemma forallb_trimStart s : forallb isWhiteSpace (trimStart s) = forallb isWhiteSpace s.
Proof.
  induction s as [|c s IH]; [reflexivity|].
  cbn. destruct (isWhiteSpace c) eqn:E; [exact IH|]. cbn. now rewrite E.
Qed.

Lemma trimStart_nil s : trimStart s = [] <-> forallb isWhiteSpace s = true.
Proof.
  induction s as [|c s IH]; [easy|].
  cbn. destruct (isWhiteSpace c); [exact IH|]. split; discriminate.
Qed.

Lemma forallb_rev {A} (f : A -> bool) l : forallb f (rev l) = forallb f l.
Proof.
  induction l as [|a l IH]; [reflexivity|].
  cbn. rewrite forallb_app, IH. cbn. rewrite andb_true_r. apply andb_comm.
Qed.

(** [line.trim()] is falsy exactly on blank lines. *)
Lemma truthy_trim s : truthy (trim s) = negb (isBlank s).
Proof.
  unfold trim, isBlank.
  rewrite <- (forallb_trimStart s), <- (forallb_rev _ (trimStart s)).
  destruct (forallb isWhiteSpace (rev (trimStart s))) eqn:E.
  - apply trimStart_nil in E. now rewrite E.
  - destruct (trimStart (rev (trimStart s))) as [|c r] eqn:E'.
    + apply trimStart_nil in E'. congruence.
    + cbn. destruct (rev r ++ [c]) eqn:E''; [|reflexivity].
      now apply app_eq_nil in E'' as [_ ?].
Qed.

Lemma split_nonempty sep s : split sep s <> [].
Proof.
  destruct s as [|c s]; cbn; [discriminate|].
  destruct (c =? sep); [discriminate|]. destruct (split sep s); discriminate.
Qed.

Lemma split_snoc_sep sep s : split sep (s ++ [sep]) = split sep s ++ [[]].
Proof.
  induction s as [|c s IH]; cbn.
  - now rewrite Z.eqb_refl.
  - destruct (c =? sep); [now rewrite IH|].
    rewrite IH. pose proof (split_nonempty sep s).
    destruct (split sep s); [congruence | reflexivity].
Qed.

(** *** Decimal numerals *)

Lemma leadingDigits_digitsOf u :
  fold_left (fun acc d => acc * 10 + d) (leadingDigits (digitsOf u)) 0
  = Z.of_N (Pos.of_uint u).
Proof.
  assert (Hacc : forall u acc,
             fold_left (fun acc d => acc * 10 + d) (leadingDigits (digitsOf u)) (Z.pos acc)
             = Z.pos (Pos.of_uint_acc u acc)).
  { clear u. induction u as [|u IH|u IH|u IH|u IH|u IH|u IH|u IH|u IH|u IH|u IH];
      intros acc; [reflexivity|..];
      cbn [digitsOf leadingDigits isDigit between Z.leb Z.compare Pos.compare
           Pos.compare_cont andb fold_left Pos.of_uint_acc];
      rewrite <- IH; f_equal; lia. }
  induction u as [|u IH|u IH|u IH|u IH|u IH|u IH|u IH|u IH|u IH|u IH];
    [reflexivity | exact IH | ..];
    cbn [digitsOf leadingDigits isDigit between Z.leb Z.compare Pos.compare
         Pos.compare_cont andb fold_left Pos.of_uint];
    cbn [Z.of_N]; rewrite <- Hacc; reflexivity.
Qed.

Lemma leadingDigits_nonnil u : u <> Decimal.Nil -> leadingDigits (digitsOf u) <> [].
Proof. destruct u; [congruence | discriminate..]. Qed.

Lemma leadingDigits_junk u junk :
  isDigit (hd 0 junk) = false ->
  leadingDigits (digitsOf u ++ junk) = leadingDigits (digitsOf u).
Proof.
  intros Hjunk. induction u; cbn; try (now f_equal).
  destruct junk as [|c junk]; [reflexivity|]. cbn in Hjunk. cbn. now rewrite Hjunk.
Qed.

Lemma digitsOf_head u junk :
  u <> Decimal.Nil ->
  exists c r, digitsOf u ++ junk = c :: r /\ 48 <= c <= 57.
Proof.
  intros Hu. destruct u; [congruence|..]; cbn; eexists; eexists; (split; [reflexivity|lia]).
Qed.

Lemma digit_not_ws c : 48 <= c <= 57 -> isWhiteSpace c = false.
Proof.
  intros Hc. unfold isWhiteSpace, between.
  repeat (apply orb_false_iff; split);
    try (apply andb_false_iff; left; apply Z.leb_gt; lia);
    try (apply andb_false_iff; right; apply Z.leb_gt; lia);
    apply Z.eqb_neq; lia.
Qed.

Lemma parseInt10_unsigned_junk u junk :
  u <> Decimal.Nil -> isDigit (hd 0 junk) = false ->
  parseInt10 (digitsOf u ++ junk) = roundToDouble (Z.of_N (Pos.of_uint u)).
Proof.
  intros Hu Hjunk.
  pose proof (leadingDigits_junk u junk Hjunk) as Hlead.
  destruct (digitsOf_head u junk Hu) as (c & r & Heq & Hc).
  unfold parseInt10. rewrite Heq in *. cbn [trimStart].
  rewrite (digit_not_ws c Hc).
  destruct (Z.eqb_spec c 45); [lia|]. destruct (Z.eqb_spec c 43); [lia|].
  cbn [fst snd]. rewrite Hlead.
  pose proof (leadingDigits_nonnil u Hu) as Hne.
  pose proof (leadingDigits_digitsOf u) as Hval.
  destruct (leadingDigits (digitsOf u)); [congruence|].
  rewrite Hval. f_equal; lia.
Qed.

Lemma parseInt10_negative_junk u junk :
  u <> Decimal.Nil -> isDigit (hd 0 junk) = false ->
  parseInt10 (45 :: digitsOf u ++ junk) = roundToDouble (- Z.of_N (Pos.of_uint u)).
Proof.
  intros Hu Hjunk. unfold parseInt10.
  change (trimStart (45 :: digitsOf u ++ junk)) with (45 :: digitsOf u ++ junk).
  cbn [Z.eqb fst snd Pos.eqb]. rewrite (leadingDigits_junk u junk Hjunk).
  pose proof (leadingDigits_nonnil u Hu) as Hne.
  pose proof (leadingDigits_digitsOf u) as Hval.
  destruct (leadingDigits (digitsOf u)); [congruence|].
  rewrite Hval. f_equal; lia.
Qed.

(** [parseInt] reads the decimal numeral of [n] as the double nearest to [n],
    and stops at the first character that is not a digit. *)
Lemma parseInt10_decimal_junk n junk :
  isDigit (hd 0 junk) = false ->
  parseInt10 (decimal n ++ junk) = roundToDouble n.
Proof.
  intros Hjunk. destruct n as [|p|p]; unfold decimal; cbn [Z.to_int].
  - now rewrite parseInt10_unsigned_junk.
  - rewrite parseInt10_unsigned_junk;
      [now rewrite Unsigned.of_to | apply Unsigned.to_uint_nonnil | exact Hjunk].
  - cbn [app]. rewrite parseInt10_negative_junk;
      [now rewrite Unsigned.of_to | apply Unsigned.to_uint_nonnil | exact Hjunk].
Qed.

Lemma parseInt10_decimal n : parseInt10 (decimal n) = roundToDouble n.
Proof.
  rewrite <- (app_nil_r (decimal n)). now apply parseInt10_decimal_junk.
Qed.

(** *** Integers that are doubles *)

Lemma pow53_lt_pow1024 : 2 ^ 53 < 2 ^ 1024.
Proof. reflexivity. Qed.

(** Below 2^53 in magnitude every integer is a double. *)
Lemma roundToDouble_safe n : - 2 ^ 53 < n < 2 ^ 53 -> roundToDouble n = Int n.
Proof.
  intros Hn. unfold roundToDouble, nearest53.
  destruct (Z.ltb_spec (Z.abs n) (2 ^ 53)) as [_|Hge]; [|lia].
  rewrite Z.shiftl_0_r.
  destruct (Z.leb_spec (2 ^ 1024) (Z.abs n)) as [Hbig|_].
  - pose proof pow53_lt_pow1024. lia.
  - f_equal. destruct n; reflexivity.
Qed.

Lemma decimal_negative n : n < 0 -> 45 :: decimal (- n) = decimal n.
Proof. destruct n; try lia. reflexivity. Qed.

(** And it is printed with its own digits. *)
Lemma Number_toString_safe n :
  - 2 ^ 53 < n < 2 ^ 53 -> Number_toString (Int n) = decimal n.
Proof.
  intros Hn. unfold Number_toString, positiveToString.
  destruct (Z.ltb_spec n 0) as [Hneg|Hpos].
  - destruct (Z.ltb_spec (- n) (2 ^ 53)); [|lia]. now apply decimal_negative.
  - destruct (Z.ltb_spec n (2 ^ 53)); [reflexivity | lia].
Qed.

Lemma Number_mul_safe n m :
  - 2 ^ 53 < n * m < 2 ^ 53 -> Number_mul (Int n) (Int m) = Int (n * m).
Proof. intros H. cbn. now apply roundToDouble_safe. Qed.

(** ** The transform of [doubleNumbers] *)

Lemma decodeBytes_ascii c : forall d,
  bytesNeeded d = 0 -> isAscii c = true -> decodeBytes d c = (c, d).
Proof.
  induction c as [|b c IH]; intros d Hd Hc; [reflexivity|].
  cbn in Hc. apply andb_true_iff in Hc as [Hb Hc].
  cbn [decodeBytes]. unfold decodeByte, leadByte. rewrite Hd. cbn [Z.eqb].
  rewrite Hb. now rewrite (IH d Hd Hc).
Qed.

Lemma decode_ascii c d :
  bytesNeeded d = 0 -> isAscii c = true -> fst (TextDecoder_decode d c) = c.
Proof.
  intros Hd Hc. unfold TextDecoder_decode. rewrite (decodeBytes_ascii c d Hd Hc).
  unfold stripBOM. destruct (bomSeen d); [reflexivity|].
  destruct c as [|b c]; [reflexivity|].
  cbn in Hc. apply andb_true_iff in Hc as [Hb _].
  unfold between in Hb. apply andb_true_iff in Hb as [_ Hb]. apply Z.leb_le in Hb.
  destruct (Z.eqb_spec b BOM) as [->|]; [|reflexivity].
  unfold BOM in Hb. lia.
Qed.

Lemma enqueue_loop_described lines : forall controller : list chunk,
  fold_left
    (fun controller line =>
       if truthy (trim line)
       then let num := parseInt10 line in
            controller ++ [TextEncoder_encode
                             (Number_toString (Number_mul num (Int 2)) ++ [LF])]
       else controller)
    lines controller
  = controller
    ++ map doubledLine (List.filter (fun segment => negb (isBlank segment)) lines).
Proof.
  induction lines as [|line lines IH]; intros controller; cbn [fold_left List.filter map].
  - now rewrite app_nil_r.
  - rewrite IH, truthy_trim. destruct (isBlank line); cbn [negb map]; [reflexivity|].
    now rewrite <- app_assoc.
Qed.


Lemma described_trailing_newline txt :
  doubleNumbers_described (txt ++ [LF]) = doubleNumbers_described txt.
Proof.
  unfold doubleNumbers_described. rewrite split_snoc_sep, List.filter_app, map_app.
  cbn. apply app_nil_r.
Qed.

Lemma doubleNumbers_transform_described c decoder controller :
  doubleNumbers_transform c (decoder, controller)
  = (snd (TextDecoder_decode decoder c),
     controller ++ doubleNumbers_described (fst (TextDecoder_decode decoder c))).
Proof.
  unfold doubleNumbers_transform, doubleNumbers_described.
  destruct (TextDecoder_decode decoder c) as [txt decoder']. cbn [fst snd].
  now rewrite enqueue_loop_described.
Qed.

Lemma pow53_twice : 2 ^ 53 = 2 * 2 ^ 52.
Proof. reflexivity. Qed.

Lemma doubledLine_safe segment n :
  parseInt10 segment = Int n -> - 2 ^ 52 < n < 2 ^ 52 ->
  doubledLine segment = TextEncoder_encode (decimal (n * 2) ++ [LF]).
Proof.
  intros Hparse Hn. pose proof pow53_twice. unfold doubledLine.
  rewrite Hparse, Number_mul_safe, Number_toString_safe by lia. reflexivity.
Qed.

Lemma doubledLine_decimal n :
  - 2 ^ 52 < n < 2 ^ 52 ->
  doubledLine (decimal n) = TextEncoder_encode (decimal (n * 2) ++ [LF]).
Proof.
  intros Hn. apply doubledLine_safe; [|exact Hn].
  rewrite parseInt10_decimal. apply roundToDouble_safe.
  pose proof pow53_twice. lia.
Qed.



(** ** The stream pipeline *)

Lemma wellScripted_closed acts : wellScripted true acts = true -> chunksOf acts = [].
Proof.
  induction acts as [|[c|ms|] acts IH]; cbn; intros H; try discriminate; auto.
Qed.

Section Pipelines.
Context {T : Type}.
Implicit Types (st : Pipeline T) (tf : chunk -> T * list chunk -> T * list chunk).

Lemma transformAll_appends tf cs : onlyEnqueues tf -> forall t q,
  transformAll tf cs (t, q)
  = (fst (transformAll tf cs (t, [])), q ++ snd (transformAll tf cs (t, []))).
Proof.
  intros Htf. induction cs as [|c cs IH]; intros t q; cbn [transformAll].
  - cbn. now rewrite app_nil_r.
  - rewrite (Htf c t q). destruct (tf c (t, [])) as [t1 o1]. cbn [fst snd].
    rewrite (IH t1 (q ++ o1)), (IH t1 o1). cbn [fst snd].
    now rewrite <- app_assoc.
Qed.

Lemma inv_done st :
  pipelineInv st -> readerDone st = true ->
  received st = expectedReceived st /\ handed st = expectedHanded st.
Proof.
  intros (_ & Hws & Hoc & Hdn & _) Hdone.
  destruct (Hdn Hdone) as [Hclosed Hoq]. destruct (Hoc Hclosed) as [Hcr Hq].
  rewrite Hcr in Hws. apply wellScripted_closed in Hws.
  unfold expectedReceived, expectedHanded, futureOut, futureIn.
  rewrite Hq, Hws, Hclosed, Hoq. cbn. now rewrite !app_nil_r.
Qed.

Lemma inv_progress st n :
  pipelineInv st -> readerDone st = false ->
  exists p, pickParty n st = Some p /\ enabled p st = true.
Proof.
  intros (_ & Hws & Hoc & Hdn & _) Hdone. unfold pickParty.
  destruct (enabled (partyOf n) st) eqn:E0; [eauto|].
  destruct (enabled Producer st) eqn:E1; [eauto|].
  destruct (enabled Pipe st) eqn:E2; [eauto|].
  destruct (enabled Reader st) eqn:E3; [eauto|].
  exfalso. unfold enabled in E1, E2, E3.
  destruct (pendingStart (source st)); [|discriminate]. cbn in Hws.
  rewrite Hws in E2. rewrite Hdone in E3.
  destruct (queue (source st)); [|discriminate].
  destruct (outClosed st); [|discriminate].
  destruct (outQueue st); discriminate.
Qed.

Lemma step_preserves p st :
  pipelineInv st -> readerDone st = false -> enabled p st = true ->
  pipelineInv (stepParty p st) /\
  (movesLeft (stepParty p st) < movesLeft st)%nat /\
  expectedReceived (stepParty p st) = expectedReceived st /\
  expectedHanded (stepParty p st) = expectedHanded st.
Proof.
  destruct st as [[acts q closed err] [t tf] h oq oc rcv dn].
  unfold pipelineInv, movesLeft, expectedReceived, expectedHanded, futureOut, futureIn.
  cbn [source through handed outQueue outClosed received readerDone
       pendingStart queue closeRequested errored tstate transform].
  intros (Herr & Hws & Hoc & Hdn & Htf) Hdone Hen. subst dn err.
  destruct p; cbn [stepParty enabled source through handed outQueue outClosed
                   received readerDone pendingStart queue closeRequested errored
                   tstate transform] in *.
  - (* the producer *)
    unfold sourceStep; cbn [pendingStart queue closeRequested errored].
    destruct acts as [|[c|ms|] acts]; [discriminate|..]; cbn [wellScripted] in Hws.
    + apply andb_true_iff in Hws as [Hcl Hws]. destruct closed; [discriminate|].
      cbn [pendingStart queue closeRequested errored chunksOf length].
      assert (oc = false) as ->
        by (destruct oc; [destruct Hoc; [reflexivity|discriminate]|reflexivity]).
      rewrite <- app_assoc. cbn [app].
      repeat split; try assumption; try discriminate; try lia.
    + cbn [pendingStart queue closeRequested errored chunksOf length].
      repeat split; try assumption; try (intros; now apply Hoc); try discriminate; try lia.
    + apply andb_true_iff in Hws as [Hcl Hws]. destruct closed; [discriminate|].
      cbn [pendingStart queue closeRequested errored chunksOf length].
      assert (oc = false) as ->
        by (destruct oc; [destruct Hoc; [reflexivity|discriminate]|reflexivity]).
      repeat split; try assumption; try discriminate; try lia.
  - (* the pipe *)
    unfold pipeStep; cbn [source through handed outQueue outClosed received readerDone
                          pendingStart queue closeRequested errored tstate transform].
    destruct q as [|c q].
    + cbn [isNil negb orb] in Hen. rewrite Hen.
      apply andb_true_iff in Hen as [Hcl Hoc']. subst closed.
      destruct oc; [discriminate|].
      cbn [source through handed outQueue outClosed received readerDone
           pendingStart queue closeRequested errored tstate transform app].
      rewrite (wellScripted_closed acts Hws). cbn [map app transformAll snd length].
      rewrite <- app_assoc. cbn [app].
      repeat split; try assumption; try discriminate; try lia.
    + assert (oc = false) as ->
        by (destruct oc; [destruct Hoc as [_ ?]; [reflexivity|discriminate]|reflexivity]).
      destruct (tf c (t, oq)) as [t' oq'] eqn:Etf.
      cbn [source through handed outQueue outClosed received readerDone
           pendingStart queue closeRequested errored tstate transform app
           transformAll map length].
      rewrite Etf, <- app_assoc. cbn [app].
      repeat split; try assumption; try discriminate; try lia.
  - (* the reader *)
    unfold readerStep; cbn [source through handed outQueue outClosed received readerDone
                            pendingStart queue closeRequested errored tstate transform].
    destruct oq as [|c oq].
    + cbn [isNil negb orb andb] in Hen. rewrite andb_true_r in Hen. subst oc.
      destruct (Hoc eq_refl) as [-> ->].
      cbn [source through handed outQueue outClosed received readerDone
           pendingStart queue closeRequested errored tstate transform app].
      repeat split; try assumption; try reflexivity; try lia.
    + cbn [source through handed outQueue outClosed received readerDone
           pendingStart queue closeRequested errored tstate transform].
      rewrite (transformAll_appends tf _ Htf t (c :: oq)).
      rewrite (transformAll_appends tf _ Htf t oq).
      cbn [snd app length]. rewrite <- app_assoc. cbn [app].
      repeat split; try assumption; try discriminate; try lia;
        match goal with H : oc = true |- _ => now destruct (Hoc H) end.
Qed.

(** Whatever the schedule, a pipeline whose source is well scripted runs to
    the end within [movesLeft] moves, and what was handed to the transformer
    and what the reader received are then known from the start. *)
Lemma runPipeline_complete fuel : forall sched st,
  pipelineInv st ->
  (movesLeft st <= fuel)%nat ->
  exists final,
    runPipeline fuel sched st = Some final /\
    readerDone final = true /\
    received final = expectedReceived st /\
    handed final = expectedHanded st.
Proof.
  induction fuel as [|fuel IH]; intros sched st Hinv Hfuel.
  - destruct (readerDone st) eqn:Hdone.
    + exists st. destruct (inv_done st Hinv Hdone) as [Hr Hh].
      destruct Hinv as (Herr & _). cbn. now rewrite Herr, Hdone.
    + unfold movesLeft in Hfuel. rewrite Hdone in Hfuel. lia.
  - destruct (readerDone st) eqn:Hdone.
    + exists st. destruct (inv_done st Hinv Hdone) as [Hr Hh].
      destruct Hinv as (Herr & _). cbn. now rewrite Herr, Hdone.
    + destruct (inv_progress st (hd O sched) Hinv Hdone) as (p & Hpick & Hen).
      destruct (step_preserves p st Hinv Hdone Hen) as (Hinv' & Hlt & Hr & Hh).
      destruct (IH (tl sched) (stepParty p st) Hinv') as (final & Hrun & Hd & Hr' & Hh');
        [lia|].
      exists final. cbn [runPipeline]. destruct Hinv as (Herr & _).
      rewrite Herr, Hdone, Hpick, Hrun. repeat split; congruence.
Qed.

End Pipelines.

(** ** The instrumentation bootstrap *)

Module InstrumentationProps.
Import Instrumentation.
Local Open Scope string_scope.

Lemma notEdge_edge : notEdge (Some "edge") = false.
Proof. reflexivity. Qed.

Lemma notEdge_other env : env <> Some "edge" -> notEdge env = true.
Proof.
  destruct env as [v|]; [|reflexivity]. intros Hne. cbn.
  destruct (String.eqb_spec v "edge") as [->|]; [congruence | reflexivity].
Qed.

Lemma instrumentation_not_edge env world :
  notEdge env = true ->
  instrumentation env world
  = mkBootstrap
      (RegisterOTel "example-nextjs-workflow" :: ImportModule "workflow/api"
         :: GetWorld :: match start world with Some _ => [Start] | None => [] end)
      (Some (match start world with Some settles => settles | None => Fulfilled end)).
Proof.
  intros Hne. unfold instrumentation, kickstart. rewrite Hne.
  destruct (start world); reflexivity.
Qed.

(** C4: with [NEXT_RUNTIME] equal to ['edge'] the bootstrap only registers
    telemetry: the workflow API module is not imported, [start] is not
    invoked and no promise chain is made.  For every other value, unset
    included, the module is imported, the world is fetched, and [start] is
    invoked exactly when the world has one. *)
Theorem edge_runtime_suppresses_kickstart (world : WorldObject) :
  (actions (instrumentation (Some "edge") world)
     = [RegisterOTel "example-nextjs-workflow"] /\
   (forall specifier,
      ~ In (ImportModule specifier) (actions (instrumentation (Some "edge") world))) /\
   ~ In Start (actions (instrumentation (Some "edge") world)) /\
   pendingChain (instrumentation (Some "edge") world) = None) /\
  (forall env, env <> Some "edge" ->
     In (ImportModule "workflow/api") (actions (instrumentation env world)) /\
     In GetWorld (actions (instrumentation env world)) /\
     (In Start (actions (instrumentation env world)) <-> start world <> None)).
Proof.
  split.
  - split; [reflexivity|]. split; [|split; [|reflexivity]].
    + intros specifier [H|[]]. discriminate.
    + intros [H|[]]. discriminate.
  - intros env Henv. rewrite (instrumentation_not_edge env world (notEdge_other env Henv)).
    cbn [actions]. split; [right; left; reflexivity|].
    split; [right; right; left; reflexivity|].
    destruct (start world) as [settles|]; split.
    + discriminate.
    + intros _. do 3 right. left. reflexivity.
    + intros [H|[H|[H|[]]]]; discriminate.
    + congruence.
Qed.

Lemma edge_runtime_witness :
  None <> Some "edge" /\
  In (ImportModule "workflow/api")
     (actions (instrumentation None (mkWorldObject (Some Fulfilled)))) /\
  In GetWorld (actions (instrumentation None (mkWorldObject (Some Fulfilled)))) /\
  (In Start (actions (instrumentation None (mkWorldObject (Some Fulfilled))))
   <-> start (mkWorldObject (Some Fulfilled)) <> None).
Proof.
  split; [discriminate|].
  apply (proj2 (edge_runtime_suppresses_kickstart (mkWorldObject (Some Fulfilled))) None).
  discriminate.
Defined.

(** C5: outside the edge runtime the bootstrap performs all three boundary
    actions, in this order: it registers telemetry under the service name
    ['example-nextjs-workflow'], imports the workflow API module, and invokes
    the world's [start] when there is one. *)
Theorem non_edge_bootstrap_registers_imports_starts (env : option string)
    (world : WorldObject) :
  env <> Some "edge" ->
  exists hook,
    actions (instrumentation env world)
    = RegisterOTel "example-nextjs-workflow" :: ImportModule "workflow/api"
        :: GetWorld :: hook /\
    (forall settles, start world = Some settles -> hook = [Start]) /\
    (start world = None -> hook = []).
Proof.
  intros Henv. rewrite (instrumentation_not_edge env world (notEdge_other env Henv)).
  eexists. split; [reflexivity|]. destruct (start world); split; congruence.
Qed.

Lemma non_edge_bootstrap_witness :
  Some "nodejs" <> Some "edge" /\
  exists hook,
    actions (instrumentation (Some "nodejs") (mkWorldObject (Some Fulfilled)))
    = RegisterOTel "example-nextjs-workflow" :: ImportModule "workflow/api"
        :: GetWorld :: hook /\
    (forall settles, start (mkWorldObject (Some Fulfilled)) = Some settles -> hook = [Start]) /\
    (start (mkWorldObject (Some Fulfilled)) = None -> hook = []).
Proof.
  split; [discriminate|].
  apply (non_edge_bootstrap_registers_imports_starts (Some "nodejs")). discriminate.
Defined.

(** C6 as stated fails on a world object without [start]: the optional call
    is skipped and the promise chain fulfils, so nothing is rejected and
    nothing propagates. *)
Lemma missing_start_is_no_failure :
  start (mkWorldObject None) = None /\
  pendingChain (instrumentation None (mkWorldObject None)) = Some Fulfilled /\
  ~ In Start (actions (instrumentation None (mkWorldObject None))) /\
  ~ (exists reason,
       pendingChain (instrumentation None (mkWorldObject None)) = Some (Rejected reason)).
Proof.
  split; [reflexivity|]. split; [reflexivity|]. split.
  - intros [H|[H|[H|[]]]]; discriminate.
  - intros [reason H]. discriminate.
Qed.

(** C6, amended: outside the edge runtime a rejected startup hook propagates:
    the promise chain the bootstrap leaves behind rejects with the hook's own
    reason, the hook having been invoked once (nothing catches, retries or
    reclassifies).  A world object without [start] is not a failure: [start]
    is not invoked and the chain fulfils. *)
Theorem rejected_start_propagates_missing_start_does_not (env : option string)
    (world : WorldObject) :
  env <> Some "edge" ->
  (forall reason,
     start world = Some (Rejected reason) ->
     pendingChain (instrumentation env world) = Some (Rejected reason) /\
     count_occ Action_eq_dec (actions (instrumentation env world)) Start = 1%nat) /\
  (start world = None ->
     pendingChain (instrumentation env world) = Some Fulfilled /\
     count_occ Action_eq_dec (actions (instrumentation env world)) Start = 0%nat).
Proof.
  intros Henv. rewrite (instrumentation_not_edge env world (notEdge_other env Henv)).
  split.
  - intros reason ->. split; reflexivity.
  - intros ->. split; reflexivity.
Qed.

Lemma rejected_start_witness :
  None <> Some "edge" /\
  (forall reason,
     start (mkWorldObject (Some (Rejected "boom"))) = Some (Rejected reason) ->
     pendingChain (instrumentation None (mkWorldObject (Some (Rejected "boom"))))
     = Some (Rejected reason) /\
     count_occ Action_eq_dec
       (actions (instrumentation None (mkWorldObject (Some (Rejected "boom"))))) Start
     = 1%nat) /\
  (start (mkWorldObject (Some (Rejected "boom"))) = None ->
     pendingChain (instrumentation None (mkWorldObject (Some (Rejected "boom"))))
     = Some Fulfilled /\
     count_occ Action_eq_dec
       (actions (instrumentation None (mkWorldObject (Some (Rejected "boom"))))) Start
     = 0%nat).
Proof.
  split; [discriminate|].
  apply (rejected_start_propagates_missing_start_does_not None). discriminate.
Defined.

End InstrumentationProps.
Lemma doubleNumbers_transform_onlyEnqueues : onlyEnqueues doubleNumbers_transform.
Proof.
  intros c decoder q. rewrite !doubleNumbers_transform_described. reflexivity.
Qed.

Lemma streamWorkflow_pipelineInv :
  pipelineInv (pipeThrough (new_ReadableStream genBenchStream_start)
                 (mkTransform new_TextDecoder doubleNumbers_transform)).
Proof.
  repeat split; try discriminate.
  apply doubleNumbers_transform_onlyEnqueues.
Qed.

(** C3: [genBenchStream]'s source enqueues exactly the ten chunks ["0\n"] to
    ["9\n"], in order, and then closes; [streamWorkflow] runs the producing
    step and then the transforming step, once each, and returns the piped
    stream; under every schedule of producer, pipe and reader the transformer
    is handed each of the ten chunks, in order, before it sees the close, and
    the reader receives ["0\n"; "2\n"; ...; "18\n"] and then the end of the
    stream (43 moves always suffice). *)
Theorem streamWorkflow_doubles_each_line (o sched : list nat) (fuel : nat) :
  (43 <= fuel)%nat ->
  chunksOf genBenchStream_start
  = asLines ["0"; "1"; "2"; "3"; "4"; "5"; "6"; "7"; "8"; "9"]%string /\
  wellScripted false genBenchStream_start = true /\
  last genBenchStream_start = Some Close /\
  exists doubled w final,
    run streamWorkflow o = Some (doubled, w) /\
    history w = [Started genBenchStream_fn 0; Observed 0;
                 Started doubleNumbers_fn 1; Observed 1] /\
    pendingStart (source doubled) = genBenchStream_start /\
    runPipeline fuel sched doubled = Some final /\
    readerDone final = true /\
    handed final
    = map Handed (chunksOf genBenchStream_start) ++ [SawClose] /\
    received final
    = asLines ["0"; "2"; "4"; "6"; "8"; "10"; "12"; "14"; "16"; "18"]%string.
Proof.
  intros Hfuel. split; [reflexivity|]. split; [reflexivity|]. split; [reflexivity|].
  destruct (runPipeline_complete fuel sched _ streamWorkflow_pipelineInv)
    as (final & Hrun & Hdone & Hreceived & Hhanded).
  { change (43 <= fuel)%nat. exact Hfuel. }
  eexists. eexists. exists final.
  split; [reflexivity|]. split; [reflexivity|]. split; [reflexivity|].
  split; [exact Hrun|]. split; [exact Hdone|]. split.
  - rewrite Hhanded. reflexivity.
  - rewrite Hreceived. vm_compute. reflexivity.
Qed.

Lemma streamWorkflow_witness :
  (43 <= 43)%nat /\
  exists doubled w final,
    run streamWorkflow [] = Some (doubled, w) /\
    history w = [Started genBenchStream_fn 0; Observed 0;
                 Started doubleNumbers_fn 1; Observed 1] /\
    pendingStart (source doubled) = genBenchStream_start /\
    runPipeline 43 [2; 2; 1; 0; 0; 0; 1; 1; 5; 3]%nat doubled = Some final /\
    readerDone final = true /\
    handed final
    = map Handed (chunksOf genBenchStream_start) ++ [SawClose] /\
    received final
    = asLines ["0"; "2"; "4"; "6"; "8"; "10"; "12"; "14"; "16"; "18"]%string.
Proof.
  split; [lia|].
  apply (streamWorkflow_doubles_each_line [] [2; 2; 1; 0; 0; 0; 1; 1; 5; 3]%nat 43).
  lia.
Defined.

(** * Further properties *)

Lemma length_fanned {A} (g : Z -> A) n i id0 : length (fanned g n i id0) = n.
Proof. unfold fanned. now rewrite length_map, length_seq. Qed.

(** X1: for every integer [count], negative ones included,
    [promiseAllStressTestWorkflow count] returns [max 0 count]; it starts that
    many steps, all of them before it observes any completion, observes each
    once, and takes one answer of the oracle per step. *)
Theorem promiseAll_any_count (count : Z) (o : list nat) :
  exists w order,
    run (promiseAllStressTestWorkflow count) o = Some (Z.max 0 count, w) /\
    order ≡ₚ seq 0 (Z.to_nat count) /\
    history w
    = map (Started stressTestStep_fn) (seq 0 (Z.to_nat count)) ++ map Observed order /\
    oracle w = drop (Z.to_nat count) o.
Proof.
  set (n := Z.to_nat count).
  destruct (Promise_all_spec (fanned (fun i : Z => i) n 0 0)
              (mkWorld (0 + n) o (map (Started stressTestStep_fn) (seq 0 n))))
    as (order & Hperm & Hall).
  cbn [nextId oracle history] in Hall. rewrite length_fanned in Hall.
  eexists. exists (map pid order). split; [|split; [|split]].
  - unfold promiseAllStressTestWorkflow, promiseAllStressTest_results,
      promiseAllStressTest_promises, run, forLt.
    rewrite Z.sub_0_r. fold n. rewrite bind_assoc.
    erewrite bind_Some; [|apply (fanOut_spec stressTestStep_fn (fun i : Z => i))].
    cbn [nextId oracle history initial app].
    rewrite (bind_Some _ _ _ _ _ Hall). unfold ret.
    rewrite length_map, length_fanned.
    do 2 f_equal. lia.
  - rewrite Hperm. now rewrite pid_fanned.
  - cbn [history]. now rewrite map_map.
  - reflexivity.
Qed.

(** *** More on the race drain *)

(** The turn the oracle's next answer selects. *)
Lemma raceTurn_pick (tasks : list (Z * Promise Z)) done w k p :
  tasks !! (hd O (oracle w) mod length tasks)%nat = Some (k, p) ->
  raceTurn tasks done w
  = Some ((Map_delete (pval p) tasks, done ++ [pval p]),
          mkWorld (nextId w) (tl (oracle w)) (history w ++ [Observed (pid p)])).
Proof.
  intros Hjp. unfold raceTurn, Promise_race. rewrite bind_assoc.
  unfold bind at 1, choose. unfold Map_values. rewrite length_map.
  destruct (length tasks) as [|m] eqn:Hlen.
  { destruct tasks; [discriminate Hjp | discriminate Hlen]. }
  change (map snd tasks) with (snd <$> tasks).
  unfold bind at 1. rewrite list_lookup_fmap, Hjp. reflexivity.
Qed.

Lemma pids_filled g n :
  map (fun e : Z * Promise Z => pid (snd e)) (filled g n 0 0) = seq 0 n.
Proof. unfold filled. rewrite map_map. cbn. apply map_id. Qed.

Lemma length_filled g n i id0 : length (filled g n i id0) = n.
Proof. unfold filled. now rewrite length_map, length_seq. Qed.

(** Short of one turn per entry and one more look at the guard, the loop has
    not returned. *)
Lemma raceDrain_short fuel : forall (tasks : list (Z * Promise Z)) done w,
  NoDup (Map_keys tasks) ->
  selfKeyed tasks ->
  (fuel <= length tasks)%nat ->
  raceDrain fuel tasks done w = None.
Proof.
  induction fuel as [|fuel IH]; intros tasks done w Hnd Hself Hfuel; [reflexivity|].
  rewrite raceDrain_S.
  assert (Hne : tasks <> []) by (destruct tasks; [cbn in Hfuel; lia | discriminate]).
  rewrite (proj2 (Map_size_pos tasks) Hne).
  destruct (raceTurn_spec tasks done w Hne) as (j & k & p & Hjp & Hturn).
  assert (Hin : (k, p) ∈ tasks) by (eapply list_elem_of_lookup_2; eauto).
  rewrite (Hself k p Hin) in Hturn.
  rewrite (Map_delete_lookup tasks j k p Hnd Hjp) in Hturn.
  rewrite (bind_Some _ _ _ _ _ Hturn). cbn [fst snd].
  apply IH.
  - rewrite <- (Map_delete_lookup tasks j k p Hnd Hjp). now apply Map_delete_NoDup.
  - intros k' p' Hin'. apply Hself. eapply elem_of_delete_sub; eauto.
  - rewrite length_delete by eauto. lia.
Qed.

(** X2: for every integer [count] the drain loop of
    [promiseRaceStressTestLargeWorkflow] takes exactly [max 0 count] turns:
    with fuel for more looks at the guard than that it returns [max 0 count]
    (0 and no step started when [count <= 0]), every step having been started
    before the first race and one answer of the oracle taken per turn; with
    less it has not returned. *)
Theorem promiseRace_takes_count_turns (count : Z) (fuel : nat) (o : list nat) :
  ((Z.to_nat count < fuel)%nat ->
   exists w order,
     run (promiseRaceStressTestLargeWorkflow fuel count) o = Some (Z.max 0 count, w) /\
     order ≡ₚ seq 0 (Z.to_nat count) /\
     history w
     = map (Started stressTestStep_fn) (seq 0 (Z.to_nat count)) ++ map Observed order /\
     oracle w = drop (Z.to_nat count) o) /\
  ((fuel <= Z.to_nat count)%nat ->
   run (promiseRaceStressTestLargeWorkflow fuel count) o = None).
Proof.
  set (n := Z.to_nat count).
  pose proof (raceFill_spec (fun i => i) count (initial o)) as Hfill.
  fold n in Hfill. cbn [nextId oracle history initial app Nat.add] in Hfill.
  split; intros Hfuel.
  - destruct (raceDrain_selfKeyed fuel (filled (fun i => i) n 0 0) []
                (mkWorld n o (map (Started stressTestStep_fn) (seq 0 n))))
      as (order & Hperm & Hrun).
    { apply filled_NoDup. }
    { apply filled_selfKeyed. reflexivity. }
    { now rewrite length_filled. }
    cbn [nextId oracle history app] in Hrun. rewrite length_filled in Hrun.
    assert (Hlen : length order = n) by (rewrite Hperm; apply length_filled).
    eexists. exists (map (fun e : Z * Promise Z => pid (snd e)) order).
    split; [|split; [|split]].
    + unfold promiseRaceStressTestLargeWorkflow, raceWorkflow, run.
      rewrite (bind_Some _ _ _ _ _ Hfill), (bind_Some _ _ _ _ _ Hrun).
      unfold ret. cbn [snd]. rewrite length_map, Hlen. do 2 f_equal. lia.
    + rewrite Hperm. now rewrite pids_filled.
    + cbn [history]. now rewrite map_map.
    + reflexivity.
  - unfold promiseRaceStressTestLargeWorkflow, raceWorkflow, run.
    rewrite (bind_Some _ _ _ _ _ Hfill).
    unfold bind. rewrite raceDrain_short; [reflexivity|..].
    + apply filled_NoDup.
    + apply filled_selfKeyed. reflexivity.
    + now rewrite length_filled.
Qed.

Lemma promiseRace_negative_count_witness :
  exists w order,
    run (promiseRaceStressTestLargeWorkflow 1 (-2)) [7]%nat = Some (Z.max 0 (-2), w) /\
    order ≡ₚ seq 0 (Z.to_nat (-2)) /\
    history w
    = map (Started stressTestStep_fn) (seq 0 (Z.to_nat (-2))) ++ map Observed order /\
    oracle w = drop (Z.to_nat (-2)) [7]%nat.
Proof.
  apply (proj1 (promiseRace_takes_count_turns (-2) 1 [7]%nat)). cbn. lia.
Defined.

(** Whatever order the keys are listed in, some oracle drains them so. *)
Lemma raceDrain_any_order (order : list Z) :
  forall (tasks : list (Z * Promise Z)) done nid h,
    NoDup (Map_keys tasks) ->
    selfKeyed tasks ->
    order ≡ₚ Map_keys tasks ->
    exists o w',
      raceDrain (S (length tasks)) tasks done (mkWorld nid o h)
      = Some (([], done ++ order), w').
Proof.
  induction order as [|k rest IH]; intros tasks done nid h Hnd Hself Hperm.
  - apply Permutation_nil in Hperm. destruct tasks; [|discriminate].
    exists [], (mkWorld nid [] h). cbn. now rewrite app_nil_r.
  - assert (Hk : k ∈ Map_keys tasks) by (rewrite <- Hperm; left).
    change (Map_keys tasks) with (fst <$> tasks) in Hk.
    apply list_elem_of_fmap in Hk as ([k' p] & Hkk & Hin). cbn in Hkk. subst k'.
    apply list_elem_of_lookup_1 in Hin as [j Hjp].
    assert (Hj : (j < length tasks)%nat) by (eapply lookup_lt_Some; eauto).
    assert (Hdel : Map_delete k tasks = delete j tasks)
      by (eapply Map_delete_lookup; eauto).
    destruct (IH (delete j tasks) (done ++ [k]) nid (h ++ [Observed (pid p)]))
      as (o' & w' & Hrun).
    + rewrite <- Hdel. now apply Map_delete_NoDup.
    + intros k' p' Hin'. apply Hself. eapply elem_of_delete_sub; eauto.
    + apply (Permutation_cons_inv (a := k)). rewrite Hperm.
      change (Map_keys tasks) with (fst <$> tasks).
      rewrite (delete_Permutation tasks j (k, p) Hjp) at 1. reflexivity.
    + exists (j :: o'), w'. rewrite raceDrain_S.
      assert (Hne : tasks <> []) by (destruct tasks; [cbn in Hj; lia | discriminate]).
      rewrite (proj2 (Map_size_pos tasks) Hne).
      erewrite bind_Some.
      2:{ apply (raceTurn_pick tasks done _ k p). cbn [oracle hd].
          now rewrite Nat.mod_small. }
      cbn [fst snd nextId oracle history tl].
      rewrite (Hself k p) by (eapply list_elem_of_lookup_2; eauto).
      rewrite Hdel. rewrite length_delete in Hrun by eauto.
      replace (S (length tasks - 1)) with (length tasks) in Hrun by lia.
      rewrite Hrun. now rewrite <- app_assoc.
Qed.

(** X3: the drain follows the completions, whatever they are: for every
    ordering of the keys [0 .. count - 1] there is an oracle under which the
    drained list is exactly that ordering. *)
Theorem promiseRace_any_completion_order (count : Z) (order : list Z) :
  order ≡ₚ map Z.of_nat (seq 0 (Z.to_nat count)) ->
  exists o tasks w1 w2,
    raceFill stressTestStep count (initial o) = Some (tasks, w1) /\
    raceDrain (S (Z.to_nat count)) tasks [] w1 = Some (([], order), w2) /\
    run (promiseRaceStressTestLargeWorkflow (S (Z.to_nat count)) count) o
    = Some (Z.of_nat (length order), w2).
Proof.
  intros Hperm. set (n := Z.to_nat count) in *.
  destruct (raceDrain_any_order order (filled (fun i => i) n 0 0) [] n
              (map (Started stressTestStep_fn) (seq 0 n)))
    as (o & w2 & Hrun).
  { apply filled_NoDup. }
  { apply filled_selfKeyed. reflexivity. }
  { rewrite Hperm, Map_keys_filled. unfold n.
    erewrite map_ext; [reflexivity|]. intros k. cbn. lia. }
  rewrite length_filled in Hrun. cbn [app] in Hrun.
  pose proof (raceFill_spec (fun i => i) count (initial o)) as Hfill.
  fold n in Hfill. cbn [nextId oracle history initial app Nat.add] in Hfill.
  exists o, (filled (fun i => i) n 0 0). eexists. exists w2.
  split; [exact Hfill|]. split; [exact Hrun|].
  unfold promiseRaceStressTestLargeWorkflow, raceWorkflow, run.
  now rewrite (bind_Some _ _ _ _ _ Hfill), (bind_Some _ _ _ _ _ Hrun).
Qed.

Lemma promiseRace_any_completion_order_witness :
  exists o tasks w1 w2,
    raceFill stressTestStep 3 (initial o) = Some (tasks, w1) /\
    raceDrain (S (Z.to_nat 3)) tasks [] w1 = Some (([], [2; 0; 1]), w2) /\
    run (promiseRaceStressTestLargeWorkflow (S (Z.to_nat 3)) 3) o
    = Some (Z.of_nat (length [2; 0; 1]), w2).
Proof.
  apply (promiseRace_any_completion_order 3 [2; 0; 1]).
  cbn. apply perm_trans with [0; 2; 1]; [apply perm_swap|].
  apply perm_skip, perm_swap.
Defined.

(** When the first entry in iteration order wins every race, the entries
    leave in insertion order. *)
Lemma raceDrain_first_wins fuel : forall (tasks : list (Z * Promise Z)) done w,
  NoDup (Map_keys tasks) ->
  selfKeyed tasks ->
  Forall (fun c => c = O) (oracle w) ->
  (length tasks < fuel)%nat ->
  raceDrain fuel tasks done w
  = Some (([], done ++ Map_keys tasks),
          mkWorld (nextId w) (drop (length tasks) (oracle w))
                  (history w ++ map (fun e => Observed (pid (snd e))) tasks)).
Proof.
  induction fuel as [|fuel IH]; intros tasks done w Hnd Hself Hzero Hfuel; [lia|].
  rewrite raceDrain_S. destruct tasks as [|[k p] rest].
  - cbn. rewrite !app_nil_r. now destruct w.
  - rewrite (proj2 (Map_size_pos ((k, p) :: rest))) by discriminate.
    assert (Hhd : (hd O (oracle w) mod length ((k, p) :: rest))%nat = O).
    { destruct Hzero as [|c o' -> _]; cbn [hd]; apply Nat.Div0.mod_0_l. }
    erewrite bind_Some; [|apply (raceTurn_pick _ done w k p); now rewrite Hhd].
    cbn [fst snd]. rewrite (Hself k p) by left.
    cbn [Map_delete]. rewrite Z.eqb_refl.
    apply NoDup_cons in Hnd as [_ Hnd].
    rewrite IH; try assumption.
    + cbn [nextId oracle history Map_keys map length].
      rewrite <- !app_assoc. cbn [app]. now rewrite drop_tl.
    + intros k' p' Hin. apply Hself. now right.
    + cbn [oracle]. destruct Hzero; [constructor | assumption].
    + cbn in Hfuel. lia.
Qed.

(** X4: when the first entry in iteration order wins every race (the oracle
    answers 0 throughout, as with promises that are settled already), the
    entries are drained in insertion order: the drained list is
    [0; 1; ...; count - 1]. *)
Theorem promiseRace_first_wins_drains_in_insertion_order
    (count : Z) (fuel : nat) (o : list nat) :
  Forall (fun c => c = O) o ->
  (Z.to_nat count < fuel)%nat ->
  exists tasks w1 w2,
    raceFill stressTestStep count (initial o) = Some (tasks, w1) /\
    raceDrain fuel tasks [] w1
    = Some (([], map Z.of_nat (seq 0 (Z.to_nat count))), w2) /\
    observedIds w2 = seq 0 (Z.to_nat count).
Proof.
  intros Hzero Hfuel. set (n := Z.to_nat count) in *.
  pose proof (raceFill_spec (fun i => i) count (initial o)) as Hfill.
  fold n in Hfill. cbn [nextId oracle history initial app Nat.add] in Hfill.
  exists (filled (fun i => i) n 0 0). eexists. eexists.
  split; [exact Hfill|]. split.
  - rewrite raceDrain_first_wins; try assumption.
    + cbn [app]. rewrite Map_keys_filled.
      erewrite map_ext; [reflexivity|]. intros k. cbn. lia.
    + apply filled_NoDup.
    + apply filled_selfKeyed. reflexivity.
    + now rewrite length_filled.
  - cbn [nextId oracle history].
    rewrite (observedIds_app _ _ _ _ O o), observedIds_Started. cbn [app].
    rewrite <- (map_map snd (fun p => Observed (pid p))), observedIds_Observed.
    rewrite map_map. apply pids_filled.
Qed.

Lemma promiseRace_first_wins_witness :
  exists tasks w1 w2,
    raceFill stressTestStep 3 (initial []) = Some (tasks, w1) /\
    raceDrain 4 tasks [] w1 = Some (([], map Z.of_nat (seq 0 (Z.to_nat 3))), w2) /\
    observedIds w2 = seq 0 (Z.to_nat 3).
Proof.
  apply (promiseRace_first_wins_drains_in_insertion_order 3 4 []).
  - constructor.
  - cbn. lia.
Defined.

(** *** More on text *)

Lemma forallb_of_Forall {A} (f : A -> bool) l :
  Forall (fun a => f a = true) l -> forallb f l = true.
Proof. induction 1 as [|a l Ha _ IH]; cbn; [reflexivity | now rewrite Ha]. Qed.

Lemma isPrinted_cases c :
  isPrinted c = true ->
  48 <= c <= 57 \/ In c (lit "+-.eNaInfity").
Proof.
  unfold isPrinted. intros H. apply orb_true_iff in H as [H|H].
  - left. unfold isDigit, between in H. apply andb_true_iff in H as [H1 H2].
    apply Z.leb_le in H1, H2. lia.
  - right. apply existsb_exists in H as (d & Hd & Heq).
    apply Z.eqb_eq in Heq. now subst.
Qed.

Lemma isPrinted_ascii c : isPrinted c = true -> between 0x00 0x7F c = true.
Proof.
  intros H. apply isPrinted_cases in H as [H|H].
  - unfold between. apply andb_true_iff. split; apply Z.leb_le; lia.
  - cbn in H. repeat (destruct H as [<-|H]; [reflexivity|]). destruct H.
Qed.

Lemma isPrinted_not_LF c : isPrinted c = true -> c <> LF.
Proof.
  intros H. apply isPrinted_cases in H as [H|H]; unfold LF.
  - lia.
  - cbn in H. repeat (destruct H as [<-|H]; [discriminate|]). destruct H.
Qed.

Lemma isPrinted_not_ws c : isPrinted c = true -> isWhiteSpace c = false.
Proof.
  intros H. apply isPrinted_cases in H as [H|H].
  - now apply digit_not_ws.
  - cbn in H. repeat (destruct H as [<-|H]; [reflexivity|]). destruct H.
Qed.

Lemma digitsOf_printed u : Forall (fun c => isPrinted c = true) (digitsOf u).
Proof. induction u; cbn; constructor; try assumption; reflexivity. Qed.

Lemma decimal_printed z : Forall (fun c => isPrinted c = true) (decimal z).
Proof.
  unfold decimal. destruct (Z.to_int z); [|constructor; [reflexivity|]];
    apply digitsOf_printed.
Qed.

Lemma decimal_nonempty z : decimal z <> [].
Proof.
  unfold decimal. destruct z as [|p|p]; cbn; try discriminate.
  - pose proof (Unsigned.to_uint_nonnil p).
    destruct (Pos.to_uint p); [congruence|discriminate..].
Qed.

Lemma dropZeros_printed s :
  Forall (fun c => isPrinted c = true) s ->
  Forall (fun c => isPrinted c = true) (dropZeros s).
Proof.
  induction 1 as [|c s Hc Hs IH]; cbn; [constructor|].
  destruct (c =? 48); [exact IH | now constructor].
Qed.

Lemma positiveToString_printed a :
  Forall (fun c => isPrinted c = true) (positiveToString a)
  /\ positiveToString a <> [].
Proof.
  unfold positiveToString. destruct (a <? 2 ^ 53).
  { split; [apply decimal_printed | apply decimal_nonempty]. }
  set (ds := decimal (shortestFrom (length (decimal a)) a)).
  assert (Hds : Forall (fun c => isPrinted c = true) ds) by apply decimal_printed.
  assert (Hne : ds <> []) by apply decimal_nonempty.
  destruct (Z.of_nat (length ds) <=? 21); [now split|].
  assert (Hs : Forall (fun c => isPrinted c = true) (rev (dropZeros (rev ds)))).
  { apply List.Forall_rev, dropZeros_printed, List.Forall_rev, Hds. }
  destruct (rev (dropZeros (rev ds))) as [|d [|d' more]]; [now split|..].
  - split; [|discriminate]. inversion Hs; subst. constructor; [assumption|].
    apply Forall_app. split; [repeat constructor | apply decimal_printed].
  - split; [|discriminate]. inversion Hs; subst.
    constructor; [assumption|]. constructor; [reflexivity|].
    apply Forall_app. split; [assumption|].
    apply Forall_app. split; [repeat constructor | apply decimal_printed].
Qed.

(** Whatever the number, it is printed with printing characters, and with
    one at least. *)
Lemma Number_toString_printed x :
  Forall (fun c => isPrinted c = true) (Number_toString x)
  /\ Number_toString x <> [].
Proof.
  destruct x as [|[|]|z]; cbn [Number_toString];
    try (split; [repeat constructor | discriminate]).
  destruct (z <? 0).
  - destruct (positiveToString_printed (- z)) as [H _].
    split; [constructor; [reflexivity | exact H] | discriminate].
  - apply positiveToString_printed.
Qed.

Lemma printed_ascii s :
  Forall (fun c => isPrinted c = true) s -> isAscii s = true.
Proof.
  intros H. apply forallb_of_Forall. eapply Forall_impl; [exact H|].
  apply isPrinted_ascii.
Qed.

Lemma printed_no_LF s :
  Forall (fun c => isPrinted c = true) s -> ~ In LF s.
Proof.
  intros H Hin. apply list_elem_of_In in Hin. rewrite Forall_forall in H.
  now apply (isPrinted_not_LF LF (H LF Hin)).
Qed.

Lemma printed_not_blank s :
  Forall (fun c => isPrinted c = true) s -> s <> [] -> isBlank s = false.
Proof.
  intros H Hne. destruct s as [|c s]; [congruence|].
  apply Forall_cons_1 in H as [Hc _]. unfold isBlank. cbn.
  now rewrite (isPrinted_not_ws c Hc).
Qed.

Lemma encode_ascii s : isAscii s = true -> TextEncoder_encode s = s.
Proof.
  induction s as [|c s IH]; [reflexivity|]. intros H. cbn in H.
  apply andb_true_iff in H as [Hc Hs].
  change (TextEncoder_encode (c :: s)) with (encodeCodePoint c ++ TextEncoder_encode s).
  rewrite (IH Hs).
  unfold between in Hc. apply andb_true_iff in Hc as [_ Hc]. apply Z.leb_le in Hc.
  unfold encodeCodePoint. destruct (Z.ltb_spec c 0x80); [reflexivity | lia].
Qed.

Lemma isAscii_app s t : isAscii (s ++ t) = isAscii s && isAscii t.
Proof. apply forallb_app. Qed.

Lemma Number_toString_ascii x : isAscii (Number_toString x) = true.
Proof. apply printed_ascii, Number_toString_printed. Qed.

Lemma Number_toString_no_LF x : ~ In LF (Number_toString x).
Proof. apply printed_no_LF, Number_toString_printed. Qed.

Lemma Number_toString_not_blank x : isBlank (Number_toString x) = false.
Proof. apply printed_not_blank; apply Number_toString_printed. Qed.

Lemma split_no_sep sep s : ~ In sep s -> split sep s = [s].
Proof.
  induction s as [|c s IH]; intros Hin; [reflexivity|].
  cbn. destruct (Z.eqb_spec c sep) as [->|Hne]; [exfalso; apply Hin; now left|].
  rewrite IH; [reflexivity|]. intros H. apply Hin. now right.
Qed.

(** A line with no newline in it that is not blank gives one chunk. *)
Lemma described_one_line s :
  ~ In LF s -> isBlank s = false -> doubleNumbers_described s = [doubledLine s].
Proof.
  intros HLF Hblank. unfold doubleNumbers_described.
  rewrite (split_no_sep LF s HLF). cbn. now rewrite Hblank.
Qed.

Lemma described_decimal n :
  - 2 ^ 52 < n < 2 ^ 52 ->
  doubleNumbers_described (decimal n)
  = [TextEncoder_encode (decimal (n * 2) ++ [LF])].
Proof.
  intros Hn. rewrite described_one_line.
  - now rewrite doubledLine_decimal.
  - apply printed_no_LF, decimal_printed.
  - apply printed_not_blank; [apply decimal_printed | apply decimal_nonempty].
Qed.

Lemma decimal_line_ascii n : isAscii (decimal n ++ [LF]) = true.
Proof. rewrite isAscii_app, (printed_ascii _ (decimal_printed n)). reflexivity. Qed.

(** *** More on the transform *)

Lemma decode_ascii_state c d :
  bytesNeeded d = 0 -> isAscii c = true ->
  bytesNeeded (snd (TextDecoder_decode d c)) = 0.
Proof.
  intros Hd Hc. unfold TextDecoder_decode. rewrite (decodeBytes_ascii c d Hd Hc).
  unfold stripBOM. destruct (bomSeen d); [exact Hd|].
  destruct c as [|b c]; [exact Hd|]. destruct (b =? BOM); exact Hd.
Qed.

Lemma transformAll_ascii cs : forall d q,
  bytesNeeded d = 0 ->
  forallb isAscii cs = true ->
  snd (transformAll doubleNumbers_transform cs (d, q))
  = q ++ concat (map doubleNumbers_described cs).
Proof.
  induction cs as [|c cs IH]; intros d q Hd Hcs; cbn [transformAll map concat].
  - cbn. now rewrite app_nil_r.
  - cbn in Hcs. apply andb_true_iff in Hcs as [Hc Hcs].
    rewrite doubleNumbers_transform_described, IH.
    + rewrite (decode_ascii c d Hd Hc). now rewrite <- app_assoc.
    + now apply decode_ascii_state.
    + exact Hcs.
Qed.

(** X6: [doubleNumbers] keeps no line between chunks: over ASCII chunks (no
    sequence open in the decoder) what it enqueues is, chunk after chunk, what
    each chunk gives on its own.  So a numeral cut by a chunk boundary is
    doubled in two pieces: for integers below 2^52 in magnitude, the chunks
    [a] and [b\n] give [2a\n] and [2b\n]. *)
Theorem doubleNumbers_chunks_are_independent
    (cs : list chunk) (d : TextDecoder) (q : list chunk) :
  bytesNeeded d = 0 ->
  forallb isAscii cs = true ->
  snd (transformAll doubleNumbers_transform cs (d, q))
  = q ++ concat (map doubleNumbers_described cs) /\
  forall a b : Z,
    - 2 ^ 52 < a < 2 ^ 52 -> - 2 ^ 52 < b < 2 ^ 52 ->
    snd (transformAll doubleNumbers_transform
           [TextEncoder_encode (decimal a);
            TextEncoder_encode (decimal b ++ [LF])] (d, q))
    = q ++ [TextEncoder_encode (decimal (a * 2) ++ [LF]);
            TextEncoder_encode (decimal (b * 2) ++ [LF])].
Proof.
  intros Hd Hcs. split; [now apply transformAll_ascii|].
  intros a b Hbounda Hboundb.
  assert (Ha : isAscii (decimal a) = true) by apply printed_ascii, decimal_printed.
  assert (Hb : isAscii (decimal b ++ [LF]) = true) by apply decimal_line_ascii.
  rewrite (encode_ascii _ Ha), (encode_ascii _ Hb).
  rewrite transformAll_ascii; [|exact Hd|cbn [forallb]; now rewrite Ha, Hb].
  cbn [map concat]. rewrite described_trailing_newline, !described_decimal by assumption.
  reflexivity.
Qed.

Lemma doubleNumbers_chunks_witness :
  snd (transformAll doubleNumbers_transform [lit "1"; lit "2" ++ [LF]] (new_TextDecoder, []))
  = [] ++ concat (map doubleNumbers_described [lit "1"; lit "2" ++ [LF]]) /\
  (- 2 ^ 52 < 1 < 2 ^ 52 /\ - 2 ^ 52 < 2 < 2 ^ 52 /\
   snd (transformAll doubleNumbers_transform
          [TextEncoder_encode (decimal 1);
           TextEncoder_encode (decimal 2 ++ [LF])] (new_TextDecoder, []))
   = [] ++ [TextEncoder_encode (decimal (1 * 2) ++ [LF]);
            TextEncoder_encode (decimal (2 * 2) ++ [LF])]).
Proof.
  destruct (doubleNumbers_chunks_are_independent
              [lit "1"; lit "2" ++ [LF]] new_TextDecoder []) as [Hall Hcut];
    [reflexivity | reflexivity |].
  split; [exact Hall|].
  assert (H1 : - 2 ^ 52 < 1 < 2 ^ 52) by (split; reflexivity).
  assert (H2 : - 2 ^ 52 < 2 < 2 ^ 52) by (split; reflexivity).
  split; [exact H1|]. split; [exact H2|]. exact (Hcut 1 2 H1 H2).
Defined.



(** *** What [parseInt] makes of a line *)

Lemma trimStart_head s c rest : trimStart s = c :: rest -> isWhiteSpace c = false.
Proof.
  induction s as [|a s IH]; [discriminate|]. cbn.
  destruct (isWhiteSpace a) eqn:E; [exact IH|]. intros H. inversion H; subst. exact E.
Qed.

Lemma trimStart_app_ws ws s :
  forallb isWhiteSpace ws = true -> trimStart (ws ++ s) = trimStart s.
Proof.
  induction ws as [|a ws IH]; [reflexivity|]. cbn. intros H.
  apply andb_true_iff in H as [Ha Hws]. rewrite Ha. auto.
Qed.

Lemma parseInt10_skips_ws ws s :
  forallb isWhiteSpace ws = true -> parseInt10 (ws ++ s) = parseInt10 s.
Proof. intros Hws. unfold parseInt10. now rewrite (trimStart_app_ws ws s Hws). Qed.

(** X8: a line whose first character after leading white space is neither a
    digit nor a sign is not dropped and raises nothing: it gives the chunk
    ["NaN\n"]. *)
Theorem doubleNumbers_non_numeric_line_gives_NaN (segment : text) (c : Z) (rest : text) :
  ~ In LF segment ->
  trimStart segment = c :: rest ->
  isDigit c = false -> c <> 43 -> c <> 45 ->
  doubleNumbers_described segment = [lit "NaN" ++ [LF]].
Proof.
  intros HLF Htrim Hdigit Hplus Hminus.
  rewrite described_one_line; [|exact HLF|].
  - unfold doubledLine, parseInt10. rewrite Htrim.
    destruct (Z.eqb_spec c 45); [congruence|].
    destruct (Z.eqb_spec c 43); [congruence|].
    cbn [snd leadingDigits]. rewrite Hdigit. reflexivity.
  - unfold isBlank. rewrite <- forallb_trimStart, Htrim. cbn.
    now rewrite (trimStart_head segment c rest Htrim).
Qed.

Lemma doubleNumbers_NaN_witness :
  doubleNumbers_described (lit "  abc 12") = [lit "NaN" ++ [LF]].
Proof.
  apply (doubleNumbers_non_numeric_line_gives_NaN (lit "  abc 12") 97 (lit "bc 12"));
    try reflexivity; try discriminate.
  cbn. unfold LF. intros H. repeat (destruct H as [H|H]; [discriminate|]). exact H.
Defined.

(** X9: leading white space and whatever follows the digits are ignored: a
    line made of white space, the decimal numeral of an integer [n] below
    2^52 in magnitude and a rest that does not start with a digit gives the
    one chunk holding [2 * n]. *)
Theorem doubleNumbers_doubles_numeric_prefix (ws junk : text) (n : Z) :
  - 2 ^ 52 < n < 2 ^ 52 ->
  forallb isWhiteSpace ws = true ->
  isDigit (hd 0 junk) = false ->
  ~ In LF ws -> ~ In LF junk ->
  doubleNumbers_described (ws ++ decimal n ++ junk)
  = [TextEncoder_encode (decimal (n * 2) ++ [LF])].
Proof.
  intros Hn Hws Hjunk HLFws HLFjunk.
  rewrite described_one_line.
  - f_equal. apply doubledLine_safe; [|exact Hn].
    rewrite (parseInt10_skips_ws ws _ Hws), (parseInt10_decimal_junk n junk Hjunk).
    apply roundToDouble_safe. pose proof pow53_twice. lia.
  - intros Hin. apply in_app_or in Hin as [Hin|Hin]; [now apply HLFws|].
    apply in_app_or in Hin as [Hin|Hin]; [|now apply HLFjunk].
    now apply (printed_no_LF _ (decimal_printed n)).
  - unfold isBlank. rewrite !forallb_app.
    pose proof (printed_not_blank _ (decimal_printed n) (decimal_nonempty n)) as Hnum.
    unfold isBlank in Hnum. rewrite Hnum. cbn. apply andb_false_r.
Qed.

Lemma doubleNumbers_prefix_witness :
  - 2 ^ 52 < -12 < 2 ^ 52 /\
  doubleNumbers_described (lit "  " ++ decimal (-12) ++ lit "px")
  = [TextEncoder_encode (decimal (-12 * 2) ++ [LF])].
Proof.
  assert (Hbound : - 2 ^ 52 < -12 < 2 ^ 52) by (split; reflexivity).
  split; [exact Hbound|].
  apply (doubleNumbers_doubles_numeric_prefix (lit "  ") (lit "px") (-12) Hbound);
    try reflexivity.
  - cbn. unfold LF. intros H. repeat (destruct H as [H|H]; [discriminate|]). exact H.
  - cbn. unfold LF. intros H. repeat (destruct H as [H|H]; [discriminate|]). exact H.
Defined.

(** *** [doubleNumbers] over any source *)

(** X5: [doubleNumbers] over any source whose [start] enqueues chunks and
    then closes: under every schedule the run ends, the transformer has been
    handed every chunk of the source, in order, before the close, and the
    reader has received what transforming these chunks one after the other
    enqueues. *)
Theorem doubleNumbers_any_source
    (acts : list SourceAction) (w0 : World) (sched : list nat) (fuel : nat) :
  wellScripted false acts = true ->
  (length acts + length (chunksOf acts)
   + length (snd (transformAll doubleNumbers_transform (chunksOf acts)
                               (new_TextDecoder, [])))
   + 2 <= fuel)%nat ->
  exists p w final,
    doubleNumbers (new_ReadableStream acts) w0 = Some (p, w) /\
    runPipeline fuel sched (pval p) = Some final /\
    readerDone final = true /\
    handed final = map Handed (chunksOf acts) ++ [SawClose] /\
    received final
    = snd (transformAll doubleNumbers_transform (chunksOf acts) (new_TextDecoder, [])).
Proof.
  intros Hws Hfuel.
  destruct (runPipeline_complete fuel sched
              (pipeThrough (new_ReadableStream acts)
                 (mkTransform new_TextDecoder doubleNumbers_transform)))
    as (final & Hrun & Hdone & Hreceived & Hhanded).
  { repeat split; try discriminate; try assumption.
    apply doubleNumbers_transform_onlyEnqueues. }
  { unfold movesLeft, futureOut, futureIn. cbn. lia. }
  eexists. eexists. exists final.
  split; [reflexivity|]. cbn [pval]. repeat split; assumption.
Qed.

Lemma doubleNumbers_any_source_witness :
  exists p w final,
    doubleNumbers (new_ReadableStream [Enqueue (lit "7" ++ [LF] ++ lit "x"); Close])
                  (initial [])
    = Some (p, w) /\
    runPipeline 7 [2; 1; 1; 0]%nat (pval p) = Some final /\
    readerDone final = true /\
    handed final
    = map Handed (chunksOf [Enqueue (lit "7" ++ [LF] ++ lit "x"); Close]) ++ [SawClose] /\
    received final
    = snd (transformAll doubleNumbers_transform
             (chunksOf [Enqueue (lit "7" ++ [LF] ++ lit "x"); Close])
             (new_TextDecoder, [])).
Proof.
  apply (doubleNumbers_any_source [Enqueue (lit "7" ++ [LF] ++ lit "x"); Close]
           (initial []) [2; 1; 1; 0]%nat 7).
  - reflexivity.
  - vm_compute. lia.
Defined.

(** *** A source that never closes *)

Lemma never_closing_step {T} (p : Party) (st : Pipeline T) :
  closeRequested (source st) = false ->
  (forall a, In a (pendingStart (source st)) -> a <> Close) ->
  outClosed st = false -> readerDone st = false -> errored (source st) = false ->
  closeRequested (source (stepParty p st)) = false /\
  (forall a, In a (pendingStart (source (stepParty p st))) -> a <> Close) /\
  outClosed (stepParty p st) = false /\ readerDone (stepParty p st) = false /\
  errored (source (stepParty p st)) = false.
Proof.
  destruct st as [[acts q closed err] ts h oq oc rcv dn]. cbn.
  intros -> Hacts -> -> ->. destruct p; cbn.
  - unfold sourceStep. cbn. destruct acts as [|[c|ms|] acts]; cbn.
    + repeat split; auto.
    + repeat split; auto. intros a Ha. apply Hacts. now right.
    + repeat split; auto. intros a Ha. apply Hacts. now right.
    + exfalso. apply (Hacts Close); [now left | reflexivity].
  - unfold pipeStep. cbn. destruct q as [|c q]; cbn.
    + repeat split; auto.
    + destruct (transform ts c (tstate ts, oq)). cbn. repeat split; auto.
  - unfold readerStep. cbn. destruct oq as [|c oq]; cbn; repeat split; auto.
Qed.

Lemma never_closing_run {T} fuel : forall sched (st : Pipeline T),
  closeRequested (source st) = false ->
  (forall a, In a (pendingStart (source st)) -> a <> Close) ->
  outClosed st = false -> readerDone st = false -> errored (source st) = false ->
  runPipeline fuel sched st = None.
Proof.
  induction fuel as [|fuel IH]; intros sched st Hcl Hacts Hoc Hdn Herr;
    cbn [runPipeline]; rewrite Herr, Hdn; [reflexivity|].
  destruct (pickParty (hd O sched) st) as [p|]; [|reflexivity].
  destruct (never_closing_step p st Hcl Hacts Hoc Hdn Herr) as (? & ? & ? & ? & ?).
  now apply IH.
Qed.


(** *** Decoding across chunk boundaries *)

Lemma decodeBytes_app c1 : forall d c2,
  decodeBytes d (c1 ++ c2)
  = (fst (decodeBytes d c1) ++ fst (decodeBytes (snd (decodeBytes d c1)) c2),
     snd (decodeBytes (snd (decodeBytes d c1)) c2)).
Proof.
  induction c1 as [|b c1 IH]; intros d c2.
  - cbn. now destruct (decodeBytes d c2).
  - cbn [app decodeBytes]. destruct (decodeByte d b) as [o1 d1].
    rewrite IH. destruct (decodeBytes d1 c1) as [o2 d2]. cbn [fst snd].
    destruct (decodeBytes d2 c2) as [o3 d3]. cbn [fst snd].
    now rewrite <- app_assoc.
Qed.

Lemma decodeByte_bomSeen d b : bomSeen (snd (decodeByte d b)) = bomSeen d.
Proof.
  unfold decodeByte, leadByte, resetSequence.
  repeat match goal with |- context [if ?c then _ else _] => destruct c end;
    reflexivity.
Qed.

Lemma decodeBytes_bomSeen c : forall d, bomSeen (snd (decodeBytes d c)) = bomSeen d.
Proof.
  induction c as [|b c IH]; intros d; [reflexivity|].
  cbn [decodeBytes]. pose proof (decodeByte_bomSeen d b) as Hb.
  destruct (decodeByte d b) as [o1 d1]. pose proof (IH d1) as Hc.
  destruct (decodeBytes d1 c) as [o2 d2]. cbn [snd] in *. congruence.
Qed.

Lemma decodeByte_markBomSeen d b :
  decodeByte (markBomSeen d) b
  = (fst (decodeByte d b), markBomSeen (snd (decodeByte d b))).
Proof.
  unfold decodeByte, leadByte, resetSequence, markBomSeen.
  cbn [codePoint bytesSeen bytesNeeded lowerBoundary upperBoundary bomSeen].
  repeat match goal with |- context [if ?c then _ else _] => destruct c end;
    reflexivity.
Qed.

Lemma decodeBytes_markBomSeen c : forall d,
  decodeBytes (markBomSeen d) c
  = (fst (decodeBytes d c), markBomSeen (snd (decodeBytes d c))).
Proof.
  induction c as [|b c IH]; intros d; [reflexivity|].
  cbn [decodeBytes]. rewrite decodeByte_markBomSeen.
  destruct (decodeByte d b) as [o1 d1]. cbn [fst snd]. rewrite IH.
  now destruct (decodeBytes d1 c).
Qed.

Lemma decode_raw d c :
  TextDecoder_decode d c = stripBOM (snd (decodeBytes d c)) (fst (decodeBytes d c)).
Proof. unfold TextDecoder_decode. now destruct (decodeBytes d c). Qed.

Lemma stripBOM_seen d out : bomSeen d = true -> stripBOM d out = (out, d).
Proof. intros H. unfold stripBOM. now rewrite H. Qed.

Lemma stripBOM_nil d : stripBOM d [] = ([], d).
Proof. unfold stripBOM. now destruct (bomSeen d). Qed.

Lemma stripBOM_cons d c out :
  bomSeen d = false ->
  stripBOM d (c :: out) = (if c =? BOM then out else c :: out, markBomSeen d).
Proof.
  intros H. unfold stripBOM, markBomSeen. rewrite H. now destruct (c =? BOM).
Qed.

Lemma decode_app d c1 c2 :
  TextDecoder_decode d (c1 ++ c2)
  = (fst (TextDecoder_decode d c1)
     ++ fst (TextDecoder_decode (snd (TextDecoder_decode d c1)) c2),
     snd (TextDecoder_decode (snd (TextDecoder_decode d c1)) c2)).
Proof.
  rewrite (decode_raw d (c1 ++ c2)), decodeBytes_app, (decode_raw d c1). cbn [fst snd].
  pose proof (decodeBytes_bomSeen c1 d) as Hb1.
  remember (fst (decodeBytes d c1)) as o1. remember (snd (decodeBytes d c1)) as d1.
  pose proof (decodeBytes_bomSeen c2 d1) as Hb2.
  destruct (bomSeen d1) eqn:Eb1.
  - rewrite (stripBOM_seen d1 o1 Eb1). cbn [fst snd]. rewrite decode_raw.
    rewrite !stripBOM_seen by congruence. reflexivity.
  - destruct o1 as [|c o1].
    + rewrite stripBOM_nil. cbn [fst snd app]. rewrite decode_raw.
      now destruct (stripBOM (snd (decodeBytes d1 c2)) (fst (decodeBytes d1 c2))).
    + rewrite (stripBOM_cons d1 c o1 Eb1). cbn [fst snd app].
      rewrite (stripBOM_cons _ c (o1 ++ fst (decodeBytes d1 c2))) by congruence.
      rewrite decode_raw, decodeBytes_markBomSeen. cbn [fst snd].
      rewrite stripBOM_seen by reflexivity. cbn [fst snd].
      now destruct (c =? BOM).
Qed.

(** X10: with the decoder kept across calls ([{ stream: true }]), decoding
    two chunks one after the other gives the text of their concatenation, so
    a character cut by a chunk boundary is decoded once, when its last byte
    arrives; the decoder [doubleNumbers] holds after two chunks is the one it
    would hold after the two as one chunk. *)
Theorem streaming_decode_ignores_chunk_boundaries
    (d : TextDecoder) (c1 c2 : chunk) (q : list chunk) :
  fst (TextDecoder_decode d (c1 ++ c2))
  = fst (TextDecoder_decode d c1)
    ++ fst (TextDecoder_decode (snd (TextDecoder_decode d c1)) c2) /\
  fst (doubleNumbers_transform c2 (doubleNumbers_transform c1 (d, q)))
  = fst (doubleNumbers_transform (c1 ++ c2) (d, q)).
Proof.
  split.
  - now rewrite decode_app.
  - rewrite !doubleNumbers_transform_described. cbn [fst].
    now rewrite decode_app.
Qed.

(** *** Fan-out against one step at a time *)

(** X13: [tenParallelStepsWorkflow] starts its ten steps before it observes
    any completion, under every oracle; [tenSequentialStepsWorkflow] observes
    each step before it starts the next. *)
Theorem parallel_starts_all_sequential_alternates (o : list nat) :
  (exists w order,
     run tenParallelStepsWorkflow o = Some (420, w) /\
     order ≡ₚ seq 0 10 /\
     history w = map (Started doWork_fn) (seq 0 10) ++ map Observed order) /\
  (exists w,
     run tenSequentialStepsWorkflow o = Some (42, w) /\
     history w = flat_map (fun i => [Started doWork_fn i; Observed i]) (seq 0 10)).
Proof.
  split.
  - destruct (Promise_all_spec (fanned (fun _ : Z => 42) 10 0 0)
                (mkWorld (0 + 10) o (map (Started doWork_fn) (seq 0 10))))
      as (order & Hperm & Hall).
    cbn [nextId oracle history] in Hall.
    eexists. exists (map pid order). split; [|split].
    + unfold tenParallelStepsWorkflow, run, forLt.
      change (Z.to_nat (10 - 0)) with 10%nat.
      erewrite bind_Some; [|apply (fanOut_spec doWork_fn (fun _ : Z => 42))].
      cbn [nextId oracle history initial app].
      rewrite (bind_Some _ _ _ _ _ Hall). reflexivity.
    + rewrite Hperm. now rewrite pid_fanned.
    + cbn [history]. now rewrite map_map.
  - eexists. split; vm_compute; reflexivity.
Qed.

(** *** Every chunk [doubleNumbers] enqueues is a printed number and a newline *)

Lemma described_lines txt :
  Forall (fun out => exists x, out = Number_toString x ++ [LF])
         (doubleNumbers_described txt).
Proof.
  unfold doubleNumbers_described. apply Forall_forall. intros out Hin.
  change (map doubledLine ?l) with (doubledLine <$> l) in Hin.
  apply list_elem_of_fmap in Hin as (seg & -> & _).
  exists (Number_mul (parseInt10 seg) (Int 2)). unfold doubledLine.
  apply encode_ascii. now rewrite isAscii_app, Number_toString_ascii.
Qed.

(** X14: whatever bytes come in, every chunk [doubleNumbers] enqueues is one
    line: a printed number, which is not blank, followed by one newline; it is
    ASCII and has no newline before its last byte.  Chunks already in the
    controller's queue are left in place. *)
Theorem doubleNumbers_enqueues_only_number_lines
    (c : chunk) (d : TextDecoder) (q : list chunk) :
  exists outs,
    snd (doubleNumbers_transform c (d, q)) = q ++ outs /\
    Forall (fun out =>
              exists x, out = Number_toString x ++ [LF] /\
                        isAscii out = true /\
                        ~ In LF (Number_toString x) /\
                        isBlank (Number_toString x) = false)
           outs.
Proof.
  exists (doubleNumbers_described (fst (TextDecoder_decode d c))). split.
  - now rewrite doubleNumbers_transform_described.
  - eapply Forall_impl; [apply described_lines|].
    intros out (x & ->). exists x. split; [reflexivity|]. split; [|split].
    + now rewrite isAscii_app, Number_toString_ascii.
    + apply Number_toString_no_LF.
    + apply Number_toString_not_blank.
Qed.

(** *** [Promise.all] under any completion order *)

Lemma settleAll_any_order {A} (order : list nat) :
  forall (pending : list (nat * Promise A)) values nid h,
    order ≡ₚ map (fun e => pid (snd e)) pending ->
    exists o v w',
      settleAll (length pending) pending values (mkWorld nid o h) = Some (v, w') /\
      history w' = h ++ map Observed order.
Proof.
  induction order as [|k rest IH]; intros pending values nid h Hperm.
  - apply Permutation_nil in Hperm. destruct pending; [|discriminate].
    exists [], values. eexists. split; [reflexivity|]. cbn. now rewrite app_nil_r.
  - assert (Hk : k ∈ map (fun e : nat * Promise A => pid (snd e)) pending)
      by (rewrite <- Hperm; left).
    change (map ?f pending) with (f <$> pending) in Hk.
    apply list_elem_of_fmap in Hk as ([idx p] & Hkk & Hin). cbn in Hkk.
    apply list_elem_of_lookup_1 in Hin as [j Hjp].
    assert (Hj : (j < length pending)%nat) by (eapply lookup_lt_Some; eauto).
    destruct (IH (delete j pending) (<[idx := Some (pval p)]> values) nid
                 (h ++ [Observed (pid p)])) as (o' & v & w' & Hrun & Hhist).
    + apply (Permutation_cons_inv (a := k)). rewrite Hperm.
      change (map ?f pending) with (f <$> pending).
      rewrite (delete_Permutation pending j (idx, p) Hjp) at 1.
      cbn. now rewrite Hkk.
    + exists (j :: o'), v, w'. split.
      * destruct (length pending) as [|m] eqn:Hlen; [lia|].
        rewrite length_delete in Hrun by eauto. rewrite Hlen in Hrun.
        replace (S m - 1)%nat with m in Hrun by lia.
        cbn [settleAll]. unfold bind at 1, choose. rewrite Hlen.
        cbn [oracle hd tl nextId history].
        rewrite Nat.mod_small by lia. rewrite Hjp.
        unfold bind at 1, record. cbn [nextId oracle history]. exact Hrun.
      * rewrite Hhist, <- app_assoc. cbn. now rewrite Hkk.
Qed.

(** X15: the results of the combined wait are in submission order under any
    completion order: for every ordering of the started units there is an
    oracle under which they are observed in that order, and the results are
    still [0; 1; ...; count - 1]. *)
Theorem promiseAll_any_completion_order (count : Z) (order : list nat) :
  order ≡ₚ seq 0 (Z.to_nat count) ->
  exists o w,
    run (promiseAllStressTest_results count) o
    = Some (map Z.of_nat (seq 0 (Z.to_nat count)), w) /\
    observedIds w = order.
Proof.
  intros Hperm. set (n := Z.to_nat count) in *.
  destruct (settleAll_any_order order (imap pair (fanned (fun i : Z => i) n 0 0))
              (replicate n None) (0 + n)%nat
              (map (Started stressTestStep_fn) (seq 0 n)))
    as (o & v & w' & Hrun & Hhist).
  { rewrite Hperm. rewrite <- (pid_fanned (fun i : Z => i) n 0).
    rewrite <- (snd_imap_pair (fanned (fun i : Z => i) n 0 0) id) at 1.
    now rewrite map_map. }
  rewrite length_imap, length_fanned in Hrun.
  assert (Hall : Promise_all (fanned (fun i : Z => i) n 0 0)
                   (mkWorld (0 + n) o (map (Started stressTestStep_fn) (seq 0 n)))
                 = Some (map pval (fanned (fun i : Z => i) n 0 0), w')).
  { destruct (Promise_all_spec (fanned (fun i : Z => i) n 0 0)
                (mkWorld (0 + n) o (map (Started stressTestStep_fn) (seq 0 n))))
      as (order' & _ & Hspec).
    unfold Promise_all in *. rewrite length_fanned in *.
    rewrite (bind_Some _ _ _ _ _ Hrun) in *.
    destruct (allSome v); [|discriminate]. unfold ret in *. congruence. }
  exists o, w'. split.
  - unfold promiseAllStressTest_results, promiseAllStressTest_promises, run, forLt.
    rewrite Z.sub_0_r. fold n.
    erewrite bind_Some; [|apply (fanOut_spec stressTestStep_fn (fun i : Z => i))].
    cbn [nextId oracle history initial app].
    rewrite Hall. now rewrite pval_fanned.
  - unfold observedIds. rewrite Hhist, omap_app.
    pose proof (observedIds_Started stressTestStep_fn (seq 0 n) O o) as Hs.
    unfold observedIds in Hs. cbn [history] in Hs. rewrite Hs. cbn [app].
    clear. induction order; cbn; [reflexivity | now f_equal].
Qed.

Lemma promiseAll_any_completion_order_witness :
  exists o w,
    run (promiseAllStressTest_results 3) o
    = Some (map Z.of_nat (seq 0 (Z.to_nat 3)), w) /\
    observedIds w = [2; 0; 1]%nat.
Proof.
  apply (promiseAll_any_completion_order 3 [2; 0; 1]%nat).
  cbn. apply perm_trans with [0; 2; 1]%nat; [apply perm_swap|].
  apply perm_skip, perm_swap.
Defined.

(** X11: the stream [doubleNumbers] returns ends only when its source
    closes: over a source whose [start] never calls [close], the reader never
    reads the end, under every schedule and for any number of moves. *)
Theorem doubleNumbers_ends_only_when_source_closes
    (acts : list SourceAction) (w0 : World) (sched : list nat) (fuel : nat) :
  (forall a, In a acts -> a <> Close) ->
  exists p w,
    doubleNumbers (new_ReadableStream acts) w0 = Some (p, w) /\
    runPipeline fuel sched (pval p) = None.
Proof.
  intros Hacts. eexists. eexists. split; [reflexivity|].
  cbn [pval]. apply never_closing_run; try reflexivity. exact Hacts.
Qed.

Lemma doubleNumbers_unclosed_witness :
  exists p w,
    doubleNumbers (new_ReadableStream [Enqueue (lit "1" ++ [LF]); Sleep 10]) (initial [])
    = Some (p, w) /\
    runPipeline 50 [0; 1; 2]%nat (pval p) = None.
Proof.
  apply (doubleNumbers_ends_only_when_source_closes
           [Enqueue (lit "1" ++ [LF]); Sleep 10] (initial []) [0; 1; 2]%nat 50).
  intros a [<-|[<-|[]]]; discriminate.
Defined.

Module InstrumentationMore.
Import Instrumentation.
Local Open Scope string_scope.

(** X12: in every runtime, edge included, telemetry is registered exactly
    once and before anything else; the promise chain is made unless
    [NEXT_RUNTIME] is exactly ['edge'], and the module is imported at most
    once. *)
Theorem telemetry_registered_first_in_every_runtime
    (env : option string) (world : WorldObject) :
  hd_error (actions (instrumentation env world))
  = Some (RegisterOTel "example-nextjs-workflow") /\
  count_occ Action_eq_dec (actions (instrumentation env world))
            (RegisterOTel "example-nextjs-workflow") = 1%nat /\
  (pendingChain (instrumentation env world) = None <-> env = Some "edge") /\
  (count_occ Action_eq_dec (actions (instrumentation env world))
             (ImportModule "workflow/api") <= 1)%nat.
Proof.
  unfold instrumentation, kickstart, notEdge.
  destruct env as [v|].
  - destruct (String.eqb_spec v "edge") as [->|Hne]; cbn [negb].
    + repeat split; try reflexivity. cbn. lia.
    + destruct (start world); cbn; repeat split; try discriminate; try lia;
        intros H; congruence.
  - destruct (start world); cbn; repeat split; try discriminate; lia.
Qed.

End InstrumentationMore.
